(** * NumberInput utilities: parsing, validation and step clamping

    A shallow embedding of the helpers of the NumberInput component
    (getNumericInputValidator, prepareStringValue, getPossibleNumberSubstring,
    getParsedValue, getInternalState, clampToNearestStepValue,
    updateCursorPosition, areStringRepresentationOfNumbersEqual), of the lock
    counter of useBodyScrollLock and of isUnbreakableOver of DefinitionList,
    together with the properties the specification states about them and
    further properties of the code. *)

From Stdlib Require Import ZArith QArith Qpower Qround Qabs Qreduction Qcanon.
From Stdlib Require Import Bool List Ascii String Lia Lqa.
Import ListNotations.

Local Open Scope Z_scope.
Local Open Scope Q_scope.

(** ** JavaScript numbers

    A [number] is NaN, an infinity, or a finite value.  A finite value is
    the rational that the IEEE-754 binary64 number denotes.  Addition,
    subtraction, multiplication and division compute the exact rational
    result and round it to binary64 with [round64] (to nearest, ties to
    even, with gradual underflow and with overflow to an infinity), as the
    language does; [Math.floor], [Math.abs] and the comparisons are exact
    in binary64 and are exact here.  The two zeros are not distinguished
    (the code never observes the sign of a zero).  Computed finite values
    are kept in lowest terms, so that Leibniz equality of computed values is
    numeric equality. *)
Module JS.

Inductive number : Type :=
| NaN : number
| Infinity (negative : bool) : number
| Fin (q : Q) : number.

(** A finite value in lowest terms, with no rounding. *)
Definition fin (q : Q) : number := Fin (Qred q).

Definition ofZ (z : Z) : number := Fin (inject_Z z).

Definition MAX_SAFE_INTEGER : number := ofZ (2 ^ 53 - 1).
Definition MIN_SAFE_INTEGER : number := ofZ (- (2 ^ 53 - 1)).

Definition Qneg (q : Q) : bool := negb (Qle_bool 0 q).

(** *** Rounding to binary64 *)

(** The integer nearest to [m], the even one of the two on a tie. *)
Definition roundHalfEven (m : Q) : Z :=
  let f := Qfloor m in
  match Qcompare (m - inject_Z f) (1 # 2) with
  | Lt => f
  | Gt => (f + 1)%Z
  | Eq => if Z.even f then f else (f + 1)%Z
  end.

(** The exponent [e] with [2 ^ e <= a < 2 ^ (e + 1)], for [a > 0]. *)
Definition binade (a : Q) : Z :=
  let l := (Z.log2 (Qnum a) - Z.log2 (Zpos (Qden a)))%Z in
  if Qle_bool (2 ^ l) a then l else (l - 1)%Z.

(** The binary64 number nearest to [q].  The significand has 53 bits, so
    the numbers around [q] are the multiples of [2 ^ (e - 52)], where [e]
    is the exponent of [q], and not less than -1022 (below it the numbers
    are subnormal and equally spaced).  A result of magnitude [2 ^ 1024] is
    an overflow. *)
Definition round64 (q : Q) : number :=
  let q := Qred q in
  if Qeq_bool q 0 then Fin 0
  else
    let a := Qabs q in
    let e := Z.max (binade a) (-1022) in
    let ulp := 2 ^ (e - 52) in
    let r := inject_Z (roundHalfEven (a / ulp)) * ulp in
    if Qle_bool (2 ^ 1024) r then Infinity (Qneg q)
    else Fin (Qred (if Qneg q then - r else r)).

(** The IEEE ordering; [None] when one side is NaN. *)
Definition compare (a b : number) : option comparison :=
  match a, b with
  | NaN, _ | _, NaN => None
  | Fin x, Fin y => Some (x ?= y)
  | Infinity s, Infinity t =>
      Some (if s then (if t then Eq else Lt) else (if t then Gt else Eq))
  | Infinity s, Fin _ => Some (if s then Lt else Gt)
  | Fin _, Infinity t => Some (if t then Gt else Lt)
  end.

(** [a < b], [a > b], [a <= b], [a >= b], [a === b], [a !== b]. *)
Definition ltb (a b : number) : bool :=
  match compare a b with Some Lt => true | _ => false end.
Definition gtb (a b : number) : bool :=
  match compare a b with Some Gt => true | _ => false end.
Definition leb (a b : number) : bool :=
  match compare a b with Some Lt | Some Eq => true | _ => false end.
Definition geb (a b : number) : bool :=
  match compare a b with Some Gt | Some Eq => true | _ => false end.
Definition strict_eq (a b : number) : bool :=
  match compare a b with Some Eq => true | _ => false end.
Definition strict_neq (a b : number) : bool := negb (strict_eq a b).

(** [Number.isNaN], [Number.isInteger] and the truthiness of a number. *)
Definition isNaN (a : number) : bool :=
  match a with NaN => true | _ => false end.

Definition isInteger (a : number) : bool :=
  match a with
  | Fin q => Qeq_bool (inject_Z (Qfloor q)) q
  | _ => false
  end.

Definition truthy (a : number) : bool :=
  match a with
  | NaN => false
  | Infinity _ => true
  | Fin q => negb (Qeq_bool q 0)
  end.

(** Arithmetic: the exact result rounded to binary64, with the IEEE rules
    for the special values. *)
Definition add (a b : number) : number :=
  match a, b with
  | NaN, _ | _, NaN => NaN
  | Fin x, Fin y => round64 (x + y)
  | Infinity s, Fin _ => Infinity s
  | Fin _, Infinity t => Infinity t
  | Infinity s, Infinity t => if Bool.eqb s t then Infinity s else NaN
  end.

Definition sub (a b : number) : number :=
  match a, b with
  | NaN, _ | _, NaN => NaN
  | Fin x, Fin y => round64 (x - y)
  | Infinity s, Fin _ => Infinity s
  | Fin _, Infinity t => Infinity (negb t)
  | Infinity s, Infinity t => if Bool.eqb s t then NaN else Infinity s
  end.

Definition mul (a b : number) : number :=
  match a, b with
  | NaN, _ | _, NaN => NaN
  | Fin x, Fin y => round64 (x * y)
  | Infinity s, Fin y =>
      if Qeq_bool y 0 then NaN else Infinity (xorb s (Qneg y))
  | Fin x, Infinity t =>
      if Qeq_bool x 0 then NaN else Infinity (xorb (Qneg x) t)
  | Infinity s, Infinity t => Infinity (xorb s t)
  end.

Definition div (a b : number) : number :=
  match a, b with
  | NaN, _ | _, NaN => NaN
  | Fin x, Fin y =>
      if Qeq_bool y 0
      then (if Qeq_bool x 0 then NaN else Infinity (Qneg x))
      else round64 (x / y)
  | Infinity s, Fin y => Infinity (xorb s (Qneg y))
  | Fin _, Infinity _ => Fin 0
  | Infinity _, Infinity _ => NaN
  end.

(** [Math.floor] and [Math.abs]; neither rounds. *)
Definition floor (a : number) : number :=
  match a with
  | Fin q => Fin (inject_Z (Qfloor q))
  | _ => a
  end.

Definition abs (a : number) : number :=
  match a with
  | NaN => NaN
  | Infinity _ => Infinity false
  | Fin q => fin (Qabs q)
  end.

(** [a || d] on numbers and [a ?? d], [a || d] on optional numbers. *)
Definition or_else (a d : number) : number := if truthy a then a else d.

Definition opt_or (a : option number) (d : number) : number :=
  match a with
  | Some x => or_else x d
  | None => d
  end.

Definition opt_coalesce (a : option number) (d : number) : number :=
  match a with
  | Some x => x
  | None => d
  end.

Definition opt_truthy (a : option number) : bool :=
  match a with
  | Some x => truthy x
  | None => false
  end.

End JS.

(** JavaScript strings are sequences of code units.  Code units are taken
    as 8-bit characters: the functions below look only at ASCII characters
    and treat every other code unit as a character to remove. *)
Definition jsstring : Type := list ascii.

Definition str (s : string) : jsstring := list_ascii_of_string s.

Module NumberInput.

Import JS.

(** ** getNumericInputValidator *)

Record GetNumericInputValidatorParams : Type := {
  positiveOnly : bool;
  withoutFraction : bool;
  min : option number;
  max : option number
}.

Inductive ErrorCode : Type :=
| INCORRECT_NUMBER
| NEGATIVE_VALUE_IS_NOT_ALLOWED
| FRACTION_IS_NOT_ALLOWED
| NUMBER_LESS_THAN_MIN_ALLOWED
| NUMBER_GREATER_THAN_MAX_ALLOWED.

Definition getInputPattern (withoutFraction positiveOnly : bool) : jsstring :=
  (str "^([" ++ (if positiveOnly then [] else str "\-") ++ str "\+]?\d+"
   ++ (if withoutFraction then [] else str "(?:(?:.|,)?\d+)?")
   ++ str ")+$")%list.

(** The closure returned as [validator]; [None] as a value is [null], [None]
    as a result is [undefined] (the value is correct). *)
Definition validator (p : GetNumericInputValidatorParams)
    (value : option number) : option ErrorCode :=
  let min := opt_coalesce (min p) MIN_SAFE_INTEGER in
  let max := opt_coalesce (max p) MAX_SAFE_INTEGER in
  match value with
  | None => None
  | Some value =>
      if isNaN value then Some INCORRECT_NUMBER
      else if positiveOnly p && ltb value (ofZ 0)
      then Some NEGATIVE_VALUE_IS_NOT_ALLOWED
      else if withoutFraction p && negb (isInteger value)
      then Some FRACTION_IS_NOT_ALLOWED
      else if ltb value min then Some NUMBER_LESS_THAN_MIN_ALLOWED
      else if gtb value max then Some NUMBER_GREATER_THAN_MAX_ALLOWED
      else None
  end.

Record GetNumericInputValidatorReturnValue : Type := {
  pattern : jsstring;
  validate : option number -> option ErrorCode
}.

Definition getNumericInputValidator (p : GetNumericInputValidatorParams)
    : GetNumericInputValidatorReturnValue :=
  {| pattern := getInputPattern (withoutFraction p) (positiveOnly p);
     validate := validator p |}.

(** ** prepareStringValue *)

Definition charCode (c : ascii) : nat := nat_of_ascii c.

(** The class [\d]. *)
Definition isDigit (c : ascii) : bool :=
  (48 <=? charCode c)%nat && (charCode c <=? 57)%nat.

(** The class [\D]. *)
Definition isNonDigit (c : ascii) : bool := negb (isDigit c).

(** The class [\s], on the code units below 256: tab, line feed, vertical
    tab, form feed, carriage return, space and no-break space. *)
Definition isWhiteSpace (c : ascii) : bool :=
  let n := charCode c in
  ((9 <=? n)%nat && (n <=? 13)%nat) || (n =? 32)%nat || (n =? 160)%nat.

(** The class [[-+]]. *)
Definition isSign (c : ascii) : bool :=
  Ascii.eqb c "-" || Ascii.eqb c "+".

(** The alternation [\.|,]. *)
Definition isSeparator (c : ascii) : bool :=
  Ascii.eqb c "." || Ascii.eqb c ",".

(** The class [[\d.+-]], whose complement is removed. *)
Definition isNumericChar (c : ascii) : bool :=
  isDigit c || Ascii.eqb c "." || Ascii.eqb c "+" || Ascii.eqb c "-".

(** [s.replace(from, to)] with a one-character string pattern: only the
    first occurrence is replaced. *)
Fixpoint replaceFirst (from to : ascii) (s : jsstring) : jsstring :=
  match s with
  | [] => []
  | c :: s' =>
      if Ascii.eqb c from then to :: s' else c :: replaceFirst from to s'
  end.

(** [s.replace(/[class]/g, '')]. *)
Definition removeAll (class : ascii -> bool) (s : jsstring) : jsstring :=
  filter (fun c => negb (class c)) s.

Definition prepareStringValue (value : jsstring) : jsstring :=
  removeAll (fun c => negb (isNumericChar c))
    (removeAll isWhiteSpace (replaceFirst "," "." value)).

(** ** The regular expression of pasted input

    The expression is a sequence of pieces between [^] and [$]; each piece
    quantifies a one-character class, and is a capturing group or not. *)
Inductive piece : Type :=
| CaptureOptional (class : ascii -> bool)   (* a group around [class]?      *)
| OptionalCapture (class : ascii -> bool)   (* an optional group of [class] *)
| CaptureStar (class : ascii -> bool)       (* a group around [class]*      *)
| Star (class : ascii -> bool).             (* [class]*, not captured       *)

Definition regex : Type := list piece.

(** A capture is [None] when its group took no part in the match. *)
Definition captures : Type := list (option jsstring).

(** A greedy star followed by the continuation [k]: the longest run of
    [class] is tried first, then shorter ones (backtracking). *)
Fixpoint greedy {R : Type} (class : ascii -> bool)
    (k : jsstring -> jsstring -> option R) (taken s : jsstring) : option R :=
  match s with
  | c :: s' =>
      if class c then
        match greedy class k (taken ++ [c]) s' with
        | Some r => Some r
        | None => k taken s
        end
      else k taken s
  | [] => k taken s
  end.

(** A greedy optional character followed by the continuation [k]. *)
Definition optional {R : Type} (class : ascii -> bool)
    (k : option ascii -> jsstring -> option R) (s : jsstring) : option R :=
  match s with
  | c :: s' =>
      if class c then
        match k (Some c) s' with
        | Some r => Some r
        | None => k None s
        end
      else k None s
  | [] => k None s
  end.

Definition push (c : option jsstring) (r : option captures) : option captures :=
  option_map (cons c) r.

Fixpoint matchPieces (ps : regex) (s : jsstring) : option captures :=
  match ps with
  | [] => match s with [] => Some [] | _ :: _ => None end
  | CaptureOptional class :: ps' =>
      optional class
        (fun c rest =>
           push (Some match c with Some c => [c] | None => [] end)
                (matchPieces ps' rest)) s
  | OptionalCapture class :: ps' =>
      optional class
        (fun c rest =>
           push match c with Some c => Some [c] | None => None end
                (matchPieces ps' rest)) s
  | CaptureStar class :: ps' =>
      greedy class
        (fun taken rest => push (Some taken) (matchPieces ps' rest)) [] s
  | Star class :: ps' =>
      greedy class (fun _ rest => matchPieces ps' rest) [] s
  end.

(** [re.exec(s)] for an expression anchored at both ends: the match array
    holds the whole string and then the captures. *)
Definition exec (re : regex) (s : jsstring) : option captures :=
  push (Some s) (matchPieces re s).

(** The expression of the source: a sign group, skipped non-digits, the
    integer digits, an optional separator group, the fraction digits and
    skipped non-digits. *)
Definition pastedInputParsingRegex : regex :=
  [CaptureOptional isSign; Star isNonDigit; CaptureStar isDigit;
   OptionalCapture isSeparator; CaptureStar isDigit; Star isNonDigit].

(** ** getPossibleNumberSubstring *)

(** [a.slice(start, end)] for indices within the array; [None] is an
    omitted [end]. *)
Definition slice {A : Type} (start : nat) (end_ : option nat) (a : list A)
    : list A :=
  match end_ with
  | Some e => firstn (e - start) (skipn start a)
  | None => skipn start a
  end.

(** [Boolean] on a capture: [undefined] and the empty string are falsy. *)
Definition Boolean (c : option jsstring) : bool :=
  match c with
  | Some (_ :: _) => true
  | _ => false
  end.

(** [a.join('')] on an array of strings. *)
Definition join (a : captures) : jsstring :=
  flat_map (fun c => match c with Some s => s | None => [] end) a.

Definition getPossibleNumberSubstring (value : jsstring) (allowDecimal : bool)
    : option jsstring :=
  let preparedString := prepareStringValue value in
  match exec pastedInputParsingRegex preparedString with
  | None => None
  | Some match_ =>
      if (0 <? List.length value)%nat && (List.length preparedString =? 0)%nat
      then None
      else
        let possibleNumberString :=
          join (filter Boolean
                  (slice 1 (if allowDecimal then None else Some 3%nat) match_))
        in Some possibleNumberString
  end.

(** ** The built-in conversion [Number(string)]

    After StringToNumber of the language standard: white space is trimmed,
    the empty string is 0, then come an optionally signed [Infinity], an
    optionally signed decimal literal with optional fraction and exponent,
    and unsigned hexadecimal, octal and binary integer literals; anything
    else is NaN.  [decimalLiteral] and [nonDecimalLiteral] give the
    mathematical value of a literal, and [Number] rounds it to binary64,
    so that a literal beyond the range of the numbers is an infinity. *)

Fixpoint span (class : ascii -> bool) (s : jsstring) : jsstring * jsstring :=
  match s with
  | c :: s' =>
      if class c then let (a, b) := span class s' in (c :: a, b) else ([], s)
  | [] => ([], [])
  end.

Fixpoint dropWhile (class : ascii -> bool) (s : jsstring) : jsstring :=
  match s with
  | c :: s' => if class c then dropWhile class s' else s
  | [] => []
  end.

Definition trim (s : jsstring) : jsstring :=
  rev (dropWhile isWhiteSpace (rev (dropWhile isWhiteSpace s))).

Definition digitOf (radix : nat) (c : ascii) : option Z :=
  let n := charCode c in
  let v :=
    if (48 <=? n)%nat && (n <=? 57)%nat then Some (n - 48)%nat
    else if (97 <=? n)%nat && (n <=? 102)%nat then Some (n - 87)%nat
    else if (65 <=? n)%nat && (n <=? 70)%nat then Some (n - 55)%nat
    else None in
  match v with
  | Some d => if (d <? radix)%nat then Some (Z.of_nat d) else None
  | None => None
  end.

Fixpoint digitsValue (radix : nat) (acc : Z) (s : jsstring) : option Z :=
  match s with
  | [] => Some acc
  | c :: s' =>
      match digitOf radix c with
      | Some d => digitsValue radix (Z.of_nat radix * acc + d)%Z s'
      | None => None
      end
  end.

Definition integerLiteral (radix : nat) (s : jsstring) : option Z :=
  match s with
  | [] => None
  | _ :: _ => digitsValue radix 0%Z s
  end.

Definition nonDecimalLiteral (s : jsstring) : option Z :=
  match s with
  | "0"%char :: x :: ds =>
      if Ascii.eqb x "x" || Ascii.eqb x "X" then integerLiteral 16 ds
      else if Ascii.eqb x "o" || Ascii.eqb x "O" then integerLiteral 8 ds
      else if Ascii.eqb x "b" || Ascii.eqb x "B" then integerLiteral 2 ds
      else None
  | _ => None
  end.

Definition signOf (s : jsstring) : bool * jsstring :=
  match s with
  | "-"%char :: r => (true, r)
  | "+"%char :: r => (false, r)
  | _ => (false, s)
  end.

Definition exponentPart (s : jsstring) : option Z :=
  match s with
  | [] => Some 0%Z
  | e :: r =>
      if Ascii.eqb e "e" || Ascii.eqb e "E" then
        let (negative, ds) := signOf r in
        match integerLiteral 10 ds with
        | Some n => Some (if negative then - n else n)%Z
        | None => None
        end
      else None
  end.

Definition decimalLiteral (s : jsstring) : option Q :=
  let (ip, r1) := span isDigit s in
  let (fp, r2) :=
    match r1 with
    | "."%char :: r => span isDigit r
    | _ => ([], r1)
    end in
  match (ip ++ fp)%list, exponentPart r2 with
  | _ :: _, Some e =>
      match digitsValue 10 0%Z (ip ++ fp)%list with
      | Some m =>
          Some (inject_Z m / inject_Z (10 ^ Z.of_nat (List.length fp))
                * inject_Z 10 ^ e)
      | None => None
      end
  | _, _ => None
  end.

Definition Number (s : jsstring) : number :=
  match trim s with
  | [] => ofZ 0
  | t =>
      match nonDecimalLiteral t with
      | Some z => round64 (inject_Z z)
      | None =>
          let (negative, body) := signOf t in
          if list_eq_dec ascii_dec body (str "Infinity")
          then Infinity negative
          else
            match decimalLiteral body with
            | Some q => round64 (if negative then - q else q)
            | None => NaN
            end
      end
  end.

(** ** getParsedValue *)

(** The result object; [value] is [number | null]. *)
Record ParsedValue : Type := {
  valid : bool;
  value : option number
}.

Definition getParsedValue (value : option jsstring) : ParsedValue :=
  match value with
  | None | Some [] => {| valid := true; value := None |}
  | Some s =>
      let parsedValueOrNaN := Number s in
      let isValidValue := negb (isNaN parsedValueOrNaN) in
      let parsedValue := if isValidValue then Some parsedValueOrNaN else None in
      {| valid := isValidValue; value := parsedValue |}
  end.

(** ** getInternalState *)

Definition roundIfNecessary (value : number) (allowDecimal : bool) : number :=
  if allowDecimal then value else floor value.

(** A value of type [number | null | undefined]. *)
Inductive nullable : Type :=
| Undefined
| Null
| Num (n : number).

Record VariablesProps : Type := {
  props_min : option number;
  props_max : option number;
  props_step : number;
  props_shiftMultiplier : number;
  props_value : nullable;
  props_defaultValue : nullable;
  props_allowDecimal : bool
}.

Record InternalState : Type := {
  state_min : option number;
  state_max : option number;
  state_step : number;
  state_shiftMultiplier : number;
  state_value : nullable;
  state_defaultValue : nullable
}.

(** Comparisons with an operand that may be [undefined], which converts
    to NaN. *)
Definition opt_number (a : option number) : number := opt_coalesce a NaN.

(** [v ? roundIfNecessary(v, allowDecimal) : v]. *)
Definition roundNullable (v : nullable) (allowDecimal : bool) : nullable :=
  match v with
  | Num n => if truthy n then Num (roundIfNecessary n allowDecimal) else v
  | _ => v
  end.

Definition getInternalState (props : VariablesProps) : InternalState :=
  let externalMin := props_min props in
  let externalMax := props_max props in
  let externalStep := props_step props in
  let externalShiftMultiplier := props_shiftMultiplier props in
  let externalValue := props_value props in
  let allowDecimal := props_allowDecimal props in
  let externalDefaultValue := props_defaultValue props in
  let '(rangedMin, rangedMax) :=
    if opt_truthy externalMin && opt_truthy externalMax
       && gtb (opt_number externalMin) (opt_number externalMax)
    then (externalMax, externalMin)
    else (externalMin, externalMax) in
  let min :=
    if opt_truthy rangedMin && geb (opt_number rangedMin) MIN_SAFE_INTEGER
    then rangedMin else None in
  let max :=
    if opt_truthy rangedMax && leb (opt_number rangedMax) MAX_SAFE_INTEGER
    then rangedMax else None in
  let step := or_else (roundIfNecessary (abs externalStep) allowDecimal) (ofZ 1) in
  let shiftMultiplier :=
    or_else (roundIfNecessary externalShiftMultiplier allowDecimal) (ofZ 10) in
  let value := roundNullable externalValue allowDecimal in
  let defaultValue := roundNullable externalDefaultValue allowDecimal in
  {| state_min := min; state_max := max; state_step := step;
     state_shiftMultiplier := shiftMultiplier; state_value := value;
     state_defaultValue := defaultValue |}.

(** ** clampToNearestStepValue *)

Inductive direction : Type := up | down.

Definition Direction_eqb (a b : direction) : bool :=
  match a, b with
  | up, up | down, down => true
  | _, _ => false
  end.

(** The hard range clamp that opens the function. *)
Definition rangeClamp (value min max : number) : number :=
  if gtb value max then max
  else if ltb value min then min
  else value.

Definition clampToNearestStepValue (value step : number)
    (originalMin max : option number) (direction : option direction)
    : number :=
  let max := opt_coalesce max MAX_SAFE_INTEGER in
  let base := opt_or originalMin (ofZ 0) in
  let min := opt_coalesce originalMin MIN_SAFE_INTEGER in
  let clampedValue := rangeClamp value min max in
  if negb (isInteger value) || negb (isInteger step) then clampedValue
  else
    let amountOfStepsDiff := floor (div (sub clampedValue base) step) in
    let stepDeviation :=
      sub (sub clampedValue base) (mul step amountOfStepsDiff) in
    if strict_neq stepDeviation (ofZ 0) then
      let smallerPossibleValue := add base (mul amountOfStepsDiff step) in
      let greaterPossibleValue :=
        add base (mul (add amountOfStepsDiff (ofZ 1)) step) in
      let smallerValueIsPreferrable :=
        match direction with
        | Some d => Direction_eqb d up
        | None =>
            gtb (sub greaterPossibleValue clampedValue)
                (sub clampedValue smallerPossibleValue)
        end in
      if (gtb greaterPossibleValue max || smallerValueIsPreferrable)
         && geb smallerPossibleValue min
      then smallerPossibleValue
      else if leb greaterPossibleValue max then greaterPossibleValue
      else clampedValue
    else clampedValue.

(** ** updateCursorPosition *)

(** The text field behind the ref: its value and its selection.  The field
    is a text input, whose selection is never null. *)
Record HTMLInputElement : Type := {
  el_value : jsstring;
  el_selectionStart : nat;
  el_selectionEnd : nat
}.

(** [a === b] on strings. *)
Definition string_strict_eq (a b : jsstring) : bool :=
  if list_eq_dec ascii_dec a b then true else false.

(** [s.slice(0, end)]: a negative end counts from the end of the string. *)
Definition sliceTo (s : jsstring) (end_ : Z) : jsstring :=
  let len := Z.of_nat (List.length s) in
  let to := if (end_ <? 0)%Z then Z.max (len + end_) 0 else Z.min end_ len in
  firstn (Z.to_nat to) s.

(** [el.setRangeText(replacement, start, end, 'end')] for [start <= end],
    which holds at its only call (start is 0): both indices are cut to the
    length of the value, the range is replaced, and the selection collapses
    to the end of the inserted text. *)
Definition setRangeText (replacement : jsstring) (start end_ : nat)
    (el : HTMLInputElement) : HTMLInputElement :=
  let len := List.length (el_value el) in
  let start := Nat.min start len in
  let end_ := Nat.min end_ len in
  let newEnd := (start + List.length replacement)%nat in
  {| el_value :=
       (firstn start (el_value el) ++ replacement ++ skipn end_ (el_value el))
       %list;
     el_selectionStart := newEnd;
     el_selectionEnd := newEnd |}.

(** The function acts on [inputRef.current], which may be null; the result
    is the element afterwards.  An omitted string argument is the empty
    string. *)
Definition updateCursorPosition (current : option HTMLInputElement)
    (eventRawValue computedEventValue : option jsstring)
    : option HTMLInputElement :=
  let eventRawValue := match eventRawValue with Some s => s | None => [] end in
  let computedEventValue :=
    match computedEventValue with Some s => s | None => [] end in
  let currentSelectionEndPosition :=
    match current with
    | Some el => el_selectionEnd el
    | None => List.length eventRawValue
    end in
  if negb (string_strict_eq eventRawValue computedEventValue) then
    let startingPossiblyChangedPart :=
      sliceTo eventRawValue (Z.of_nat currentSelectionEndPosition) in
    let trailingUnchangedLength :=
      (Z.of_nat (List.length eventRawValue)
       - Z.of_nat (List.length startingPossiblyChangedPart))%Z in
    let newStartingPart :=
      sliceTo computedEventValue
        (Z.of_nat (List.length computedEventValue) - trailingUnchangedLength)
    in
    option_map
      (setRangeText newStartingPart 0
         (List.length startingPossiblyChangedPart))
      current
  else current.

(** ** areStringRepresentationOfNumbersEqual *)

(** [a === b] on values of type [number | null]. *)
Definition value_strict_eq (a b : option number) : bool :=
  match a, b with
  | None, None => true
  | Some x, Some y => strict_eq x y
  | _, _ => false
  end.

Definition areStringRepresentationOfNumbersEqual (v1 v2 : jsstring) : bool :=
  if string_strict_eq v1 v2 then true
  else
    let p1 := getParsedValue (Some v1) in
    let p2 := getParsedValue (Some v2) in
    if valid p1 && valid p2 then value_strict_eq (value p1) (value p2)
    else
      let v1OnlyNumbers := removeAll isNonDigit v1 in
      let v2OnlyNumbers := removeAll isNonDigit v2 in
      if (List.length v1OnlyNumbers =? List.length v2OnlyNumbers)%nat
         && (List.length v1OnlyNumbers =? 0)%nat
      then true
      else false.

End NumberInput.

(** ** useBodyScrollLock

    The module keeps a counter of locks.  The two functions that touch the
    styles of the document body are kept as calls, recorded in the order in
    which they are made. *)
Module BodyScrollLock.

Inductive domCall : Type := setBodyStyles | restoreBodyStyles.

Record moduleState : Type := {
  locks : Z;
  calls : list domCall
}.

Definition initialState : moduleState := {| locks := 0; calls := [] |}.

(** The body of the layout effect; the boolean tells whether a cleanup
    function is returned. *)
Definition effect (enabled : bool) (s : moduleState) : moduleState * bool :=
  if enabled then
    let locks := (locks s + 1)%Z in
    ({| locks := locks;
        calls := if (locks =? 1)%Z then (calls s ++ [setBodyStyles])%list
                 else calls s |},
     true)
  else (s, false).

(** The cleanup function returned by the effect. *)
Definition cleanup (s : moduleState) : moduleState :=
  let locks := (locks s - 1)%Z in
  {| locks := locks;
     calls := if (locks =? 0)%Z then (calls s ++ [restoreBodyStyles])%list
              else calls s |}.

(** What the framework does with hooks of this module: it runs an effect, or
    it runs a cleanup that an earlier effect returned and that has not run
    yet. *)
Inductive action : Type :=
| runEffect (enabled : bool)
| runCleanup.

(** The module state and the number of cleanups still to run; [None] when a
    cleanup is asked for that no effect returned. *)
Fixpoint run (acts : list action) (s : moduleState) (pending : nat)
    : option (moduleState * nat) :=
  match acts with
  | [] => Some (s, pending)
  | runEffect enabled :: acts' =>
      let (s', returned) := effect enabled s in
      run acts' s' (if returned then S pending else pending)
  | runCleanup :: acts' =>
      match pending with
      | O => None
      | S pending' => run acts' (cleanup s) pending'
      end
  end.

(** The calls alternate, starting with [setBodyStyles]; the boolean tells
    whether the styles are set when the calls begin. *)
Fixpoint alternate (styled : bool) (cs : list domCall) : bool :=
  match cs with
  | [] => true
  | setBodyStyles :: cs' => negb styled && alternate true cs'
  | restoreBodyStyles :: cs' => styled && alternate false cs'
  end.

(** Whether the styles are set after the calls. *)
Definition styledAfter (cs : list domCall) : bool :=
  match last cs restoreBodyStyles with
  | setBodyStyles => true
  | restoreBodyStyles => false
  end.

End BodyScrollLock.

(** ** DefinitionList: isUnbreakableOver *)
Module DefinitionList.

Import JS NumberInput.

(** [value.split(/\s+/)]: the pieces between the maximal runs of white
    space; a string that begins or ends with white space gives an empty
    first or last piece, and the empty string gives one empty piece.
    [inSpace] tells that the previous character was white space, [piece] is
    the piece being read. *)
Fixpoint splitGo (inSpace : bool) (piece s : jsstring) : list jsstring :=
  match s with
  | [] => [piece]
  | c :: s' =>
      if isWhiteSpace c then
        if inSpace then splitGo true [] s' else piece :: splitGo true [] s'
      else splitGo false (piece ++ [c]) s'
  end.

Definition splitWhiteSpace (value : jsstring) : list jsstring :=
  splitGo false [] value.

Definition isUnbreakableOver (limit : number) (value : jsstring) : bool :=
  let posibleLines := splitWhiteSpace value in
  existsb (fun line => gtb (ofZ (Z.of_nat (List.length line))) limit)
    posibleLines.

End DefinitionList.

Import JS NumberInput DefinitionList.

(** ** The clamp on integers

    The computation of [clampToNearestStepValue] written with integer
    arithmetic.  It is what the function computes when the value, the step
    and the supplied bounds are integers and no intermediate result is
    rounded (lemma [clampToNearestStepValue_ofZ] below); beyond that the
    function rounds and the two differ.  For a zero step the deviation is
    NaN in the source, every comparison on the candidates fails and the
    range-clamped value is returned. *)

Definition MAX_SAFE : Z := 2 ^ 53 - 1.
Definition MIN_SAFE : Z := - (2 ^ 53 - 1).

(** The maximum and the minimum in force, and the origin of the lattice:
    an omitted bound is the safe-integer limit, and the lattice starts at
    the supplied minimum or at zero. *)
Definition effectiveMax (max : option Z) : Z :=
  match max with Some m => m | None => MAX_SAFE end.

Definition effectiveMin (originalMin : option Z) : Z :=
  match originalMin with Some m => m | None => MIN_SAFE end.

Definition stepBase (originalMin : option Z) : Z :=
  match originalMin with Some m => m | None => 0%Z end.

Definition rangeClampZ (value min max : Z) : Z :=
  if (value >? max)%Z then max
  else if (value <? min)%Z then min
  else value.

Definition clampZ (value step : Z) (originalMin max : option Z)
    (direction : option direction) : Z :=
  let max := effectiveMax max in
  let base := stepBase originalMin in
  let min := effectiveMin originalMin in
  let clampedValue := rangeClampZ value min max in
  if (step =? 0)%Z then clampedValue
  else
    let amountOfStepsDiff := ((clampedValue - base) / step)%Z in
    let stepDeviation := (clampedValue - base - step * amountOfStepsDiff)%Z in
    if negb (stepDeviation =? 0)%Z then
      let smallerPossibleValue := (base + amountOfStepsDiff * step)%Z in
      let greaterPossibleValue := (base + (amountOfStepsDiff + 1) * step)%Z in
      let smallerValueIsPreferrable :=
        match direction with
        | Some d => Direction_eqb d up
        | None =>
            (greaterPossibleValue - clampedValue
             >? clampedValue - smallerPossibleValue)%Z
        end in
      if ((greaterPossibleValue >? max)%Z || smallerValueIsPreferrable)
         && (smallerPossibleValue >=? min)%Z
      then smallerPossibleValue
      else if (greaterPossibleValue <=? max)%Z then greaterPossibleValue
      else clampedValue
    else clampedValue.

(** Integer arguments with both bounds supplied. *)
Abbreviation clamp v step lo hi dir :=
  (clampToNearestStepValue (ofZ v) (ofZ step)
     (Some (ofZ lo)) (Some (ofZ hi)) dir).

(** The integers below [2 ^ 53] in magnitude are binary64 numbers, and an
    operation whose exact result is one of them is not rounded.  Every
    intermediate result of the clamp at the range-clamped value [c] lies
    between the two step boundaries around [c], or between their distances
    from the origin of the lattice, or is less than a step: when the
    boundaries and their distances from the origin are below [2 ^ 53] in
    magnitude, no operation of the clamp is rounded. *)
Definition exactSteps (c base step : Z) : Prop :=
  let lower := (base + (c - base) / step * step)%Z in
  let upper := (lower + step)%Z in
  (Z.abs lower < 2 ^ 53 /\ Z.abs upper < 2 ^ 53
   /\ Z.abs (lower - base) < 2 ^ 53 /\ Z.abs (upper - base) < 2 ^ 53)%Z.

(** A condition on a range with a supplied minimum under which the steps
    are exact at every value of the range. *)
Definition exactRange (step lo hi : Z) : Prop :=
  (- 2 ^ 53 < lo /\ hi + step < 2 ^ 53 /\ hi - lo + step < 2 ^ 53)%Z.

(** ** The grammar of the regular expression

    [Matches re s caps]: the string [s] is, piece by piece, a word of the
    expression [re], with the captures [caps]. *)
Inductive Matches : regex -> jsstring -> captures -> Prop :=
| Matches_end : Matches [] [] []
| Matches_capture_optional_taken class ps c rest caps :
    class c = true -> Matches ps rest caps ->
    Matches (CaptureOptional class :: ps) (c :: rest) (Some [c] :: caps)
| Matches_capture_optional_skipped class ps s caps :
    Matches ps s caps ->
    Matches (CaptureOptional class :: ps) s (Some [] :: caps)
| Matches_optional_capture_taken class ps c rest caps :
    class c = true -> Matches ps rest caps ->
    Matches (OptionalCapture class :: ps) (c :: rest) (Some [c] :: caps)
| Matches_optional_capture_skipped class ps s caps :
    Matches ps s caps ->
    Matches (OptionalCapture class :: ps) s (None :: caps)
| Matches_capture_star class ps run rest caps :
    forallb class run = true -> Matches ps rest caps ->
    Matches (CaptureStar class :: ps) (run ++ rest) (Some run :: caps)
| Matches_star class ps run rest caps :
    forallb class run = true -> Matches ps rest caps ->
    Matches (Star class :: ps) (run ++ rest) caps.

(** The sanitized string is a word of the grammar of pasted input. *)
Definition inGrammar (s : jsstring) : Prop :=
  exists caps, Matches pastedInputParsingRegex s caps.

(** ** The validator in the words of the specification *)

(** The violations in the order in which the specification lists them, each
    with the condition under which it applies to the value. *)
Definition violationsInOrder (p : GetNumericInputValidatorParams)
    (v : number) : list (ErrorCode * bool) :=
  [(NEGATIVE_VALUE_IS_NOT_ALLOWED, positiveOnly p && ltb v (ofZ 0));
   (FRACTION_IS_NOT_ALLOWED, withoutFraction p && negb (isInteger v));
   (NUMBER_LESS_THAN_MIN_ALLOWED,
    ltb v (opt_coalesce (min p) MIN_SAFE_INTEGER));
   (NUMBER_GREATER_THAN_MAX_ALLOWED,
    gtb v (opt_coalesce (max p) MAX_SAFE_INTEGER))].

Fixpoint firstApplicable (l : list (ErrorCode * bool)) : option ErrorCode :=
  match l with
  | [] => None
  | (code, applies) :: l' => if applies then Some code else firstApplicable l'
  end.

(** The properties of the component with other bounds. *)
Definition withBounds (props : VariablesProps) (mn mx : option number)
    : VariablesProps :=
  {| props_min := mn; props_max := mx;
     props_step := props_step props;
     props_shiftMultiplier := props_shiftMultiplier props;
     props_value := props_value props;
     props_defaultValue := props_defaultValue props;
     props_allowDecimal := props_allowDecimal props |}.

(** The internal state given back as properties. *)
Definition stateAsProps (s : InternalState) (allowDecimal : bool)
    : VariablesProps :=
  {| props_min := state_min s; props_max := state_max s;
     props_step := state_step s;
     props_shiftMultiplier := state_shiftMultiplier s;
     props_value := state_value s;
     props_defaultValue := state_defaultValue s;
     props_allowDecimal := allowDecimal |}.

(** ** Facts about numbers *)

Section NumberFacts.

Lemma Qred_inject_Z (z : Z) : Qred (inject_Z z) = inject_Z z.
Proof.
  apply Qred_identity. simpl. apply Z.gcd_1_r.
Qed.

Lemma Qeq_bool_inject_Z (a b : Z) :
  Qeq_bool (inject_Z a) (inject_Z b) = (a =? b)%Z.
Proof.
  destruct (Z.eqb_spec a b) as [->|H].
  - apply Qeq_bool_iff. reflexivity.
  - destruct (Qeq_bool (inject_Z a) (inject_Z b)) eqn:E; [|reflexivity].
    apply Qeq_bool_iff in E. apply (proj1 (inject_Z_injective a b)) in E.
    contradiction.
Qed.

Lemma Qneg_true (q : Q) : Qneg q = true <-> q < 0.
Proof.
  unfold Qneg. destruct (Qle_bool 0 q) eqn:E; cbn.
  - apply Qle_bool_iff in E. split; [discriminate | intros C; lra].
  - split; [intros _ | reflexivity].
    apply Qnot_le_lt. intros C. apply Qle_bool_iff in C. congruence.
Qed.

End NumberFacts.

(** ** Rounding to binary64

    The two facts about [round64] on which the clamp depends: an integer
    below [2 ^ 53] in magnitude is not changed, and in the normal range
    the relative error is at most [2 ^ (-53)]. *)

Section Powers.

Lemma two_pos (e : Z) : 0 < 2 ^ e.
Proof. apply Qpower_0_lt. reflexivity. Qed.

Lemma two_add (x y : Z) : 2 ^ (x + y) == 2 ^ x * 2 ^ y.
Proof. apply Qpower_plus. discriminate. Qed.

Lemma two_lt_inv (x y : Z) : 2 ^ x < 2 ^ y -> (x < y)%Z.
Proof. intros H. apply (Qpower_lt_compat_l_inv 2); [exact H | reflexivity]. Qed.

Lemma two_inject (k : Z) : (0 <= k)%Z -> 2 ^ k == inject_Z (2 ^ k).
Proof. intros H. symmetry. apply (Zpower_Qpower 2 k H). Qed.

Lemma two_54_1024 : 2 ^ 54 < 2 ^ 1024.
Proof. apply Qpower_lt_compat_l; [lia | reflexivity]. Qed.

End Powers.

Section Rounding.

(** The exponent computed by [binade] is the binary exponent. *)
Lemma binade_spec (a : Q) :
  0 < a -> 2 ^ binade a <= a /\ a < 2 ^ (binade a + 1).
Proof.
  intros Ha. unfold binade.
  destruct a as [n d]. cbn [Qnum Qden].
  assert (Hn : (0 < n)%Z).
  { unfold Qlt in Ha. cbn in Ha. lia. }
  set (ln := Z.log2 n). set (ld := Z.log2 (Z.pos d)).
  assert (Ln : (0 <= ln)%Z) by apply Z.log2_nonneg.
  assert (Ld : (0 <= ld)%Z) by apply Z.log2_nonneg.
  destruct (Z.log2_spec n Hn) as [N1 N2]. fold ln in N1, N2.
  destruct (Z.log2_spec (Z.pos d) eq_refl) as [D1 D2]. fold ld in D1, D2.
  assert (E : (n # d) * inject_Z (Z.pos d) == inject_Z n).
  { unfold Qeq, Qmult, inject_Z. cbn. lia. }
  assert (Dpos : 0 < inject_Z (Z.pos d)) by reflexivity.
  rewrite Zle_Qle in N1, D1. rewrite Zlt_Qlt in N2, D2.
  rewrite <- two_inject in N1, D1 by lia.
  rewrite <- two_inject in N2, D2 by lia.
  pose proof (two_pos ld) as Pld.
  pose proof (two_pos (ln - ld - 1)) as Pl1.
  assert (U : (n # d) < 2 ^ (ln - ld + 1)).
  { assert (X : 2 ^ (ln - ld + 1) * 2 ^ ld == 2 ^ Z.succ ln).
    { rewrite <- two_add. replace (ln - ld + 1 + ld)%Z with (Z.succ ln) by lia.
      reflexivity. }
    apply (Qmult_lt_r _ _ (2 ^ ld) Pld). rewrite X.
    apply Qle_lt_trans with (inject_Z n); [| exact N2].
    rewrite <- E. apply Qmult_le_l; [exact Ha | exact D1]. }
  assert (L : 2 ^ (ln - ld - 1) < (n # d)).
  { assert (X : 2 ^ (ln - ld - 1) * 2 ^ Z.succ ld == 2 ^ ln).
    { rewrite <- two_add. replace (ln - ld - 1 + Z.succ ld)%Z with ln by lia.
      reflexivity. }
    apply (Qmult_lt_r _ _ (inject_Z (Z.pos d)) Dpos). rewrite E.
    apply Qlt_le_trans with (2 ^ ln); [| exact N1].
    rewrite <- X. apply Qmult_lt_l; [exact Pl1 | exact D2]. }
  destruct (Qle_bool (2 ^ (ln - ld)) (n # d)) eqn:T.
  - apply Qle_bool_iff in T. split; assumption.
  - replace (ln - ld - 1 + 1)%Z with (ln - ld)%Z by lia. split.
    + apply Qlt_le_weak, L.
    + apply Qnot_le_lt. intros C. apply Qle_bool_iff in C. congruence.
Qed.

Lemma roundHalfEven_near (m : Q) :
  Qabs (inject_Z (roundHalfEven m) - m) <= 1 # 2.
Proof.
  unfold roundHalfEven.
  pose proof (Qfloor_le m) as F1. pose proof (Qlt_floor m) as F2.
  rewrite inject_Z_plus in F2. change (inject_Z 1) with 1 in F2.
  apply Qabs_Qle_condition.
  destruct (Qcompare_spec (m - inject_Z (Qfloor m)) (1 # 2)) as [E | E | E].
  - destruct (Z.even (Qfloor m)).
    + split; lra.
    + rewrite inject_Z_plus. change (inject_Z 1) with 1. split; lra.
  - split; lra.
  - rewrite inject_Z_plus. change (inject_Z 1) with 1. split; lra.
Qed.

Lemma roundHalfEven_integer (m : Q) (j : Z) :
  m == inject_Z j -> roundHalfEven m = j.
Proof.
  intros E. unfold roundHalfEven.
  assert (F : Qfloor m = j) by (rewrite E; apply Qfloor_Z).
  rewrite F.
  destruct (Qcompare_spec (m - inject_Z j) (1 # 2)) as [L | L | L];
    [exfalso; lra | reflexivity | exfalso; lra].
Qed.

(** Rounding depends on the value of the rational only. *)
Lemma round64_comp (p q : Q) : p == q -> round64 p = round64 q.
Proof. intros E. unfold round64. rewrite (Qred_complete p q E). reflexivity. Qed.

(** Rounding gives a finite number or an infinity. *)
Lemma round64_not_NaN (q : Q) : isNaN (round64 q) = false.
Proof.
  unfold round64. destruct (Qeq_bool _ _); [reflexivity |].
  destruct (Qle_bool _ _); reflexivity.
Qed.

Lemma signed_abs (q r : Q) :
  (if Qneg q then - r else r) - q ==
  (if Qneg q then - (r - Qabs q) else r - Qabs q).
Proof.
  destruct (Qneg q) eqn:E.
  - apply Qneg_true in E. rewrite (Qabs_neg q) by lra. ring.
  - assert (H : 0 <= q).
    { apply Qnot_lt_le. intros C. apply Qneg_true in C. congruence. }
    rewrite (Qabs_pos q H). ring.
Qed.

(** An integer below [2 ^ 53] in magnitude is a binary64 number. *)
Lemma round64_integer (z : Z) :
  (Z.abs z < 2 ^ 53)%Z -> round64 (inject_Z z) = ofZ z.
Proof.
  intros B. unfold round64. rewrite Qred_inject_Z.
  destruct (Qeq_bool (inject_Z z) 0) eqn:Z0.
  - apply Qeq_bool_iff in Z0. unfold Qeq in Z0. cbn in Z0.
    assert (z = 0%Z) by lia. subst z. reflexivity.
  - assert (Hz : z <> 0%Z).
    { intros ->. discriminate. }
    change (Qabs (inject_Z z)) with (inject_Z (Z.abs z)).
    set (a := Z.abs z) in *.
    assert (Ha : (0 < a)%Z) by (subst a; lia).
    set (L := Z.log2 a).
    assert (L0 : (0 <= L)%Z) by apply Z.log2_nonneg.
    assert (L1 : (L < 53)%Z) by (apply Z.log2_lt_pow2; assumption).
    destruct (Z.log2_spec a Ha) as [S1 _]. fold L in S1.
    assert (Eb : binade (inject_Z a) = L).
    { unfold binade. cbn [Qnum Qden inject_Z]. fold L.
      change (Z.log2 1) with 0%Z. rewrite Z.sub_0_r.
      assert (T : Qle_bool (2 ^ L) (inject_Z a) = true).
      { apply Qle_bool_iff. rewrite two_inject by lia.
        rewrite <- Zle_Qle. exact S1. }
      rewrite T. reflexivity. }
    rewrite Eb. rewrite Z.max_l by lia.
    assert (Eu : 2 ^ (L - 52) * inject_Z (2 ^ (52 - L)) == 1).
    { rewrite <- two_inject by lia. rewrite <- two_add.
      replace (L - 52 + (52 - L))%Z with 0%Z by lia. reflexivity. }
    pose proof (two_pos (L - 52)) as Pu.
    assert (Em : inject_Z a / 2 ^ (L - 52) == inject_Z (a * 2 ^ (52 - L))).
    { rewrite inject_Z_mult.
      setoid_replace (inject_Z a) with
        (inject_Z a * (2 ^ (L - 52) * inject_Z (2 ^ (52 - L)))) at 1
        by (rewrite Eu; ring).
      field. lra. }
    rewrite (roundHalfEven_integer _ _ Em).
    assert (Er : inject_Z (a * 2 ^ (52 - L)) * 2 ^ (L - 52) == inject_Z a).
    { rewrite inject_Z_mult.
      setoid_replace (inject_Z a) with
        (inject_Z a * (2 ^ (L - 52) * inject_Z (2 ^ (52 - L)))) at 2
        by (rewrite Eu; ring).
      ring. }
    assert (Big : inject_Z a < 2 ^ 1024).
    { apply Qlt_trans with (2 ^ 54); [| exact two_54_1024].
      rewrite (two_inject 54) by lia. rewrite <- Zlt_Qlt.
      change (2 ^ 54)%Z with (2 * 2 ^ 53)%Z. lia. }
    destruct (Qle_bool (2 ^ 1024) _) eqn:O.
    + apply Qle_bool_iff in O. rewrite Er in O. lra.
    + unfold ofZ. f_equal.
      etransitivity; [apply Qred_complete | apply Qred_inject_Z].
      destruct (Qneg (inject_Z z)) eqn:N; rewrite Er.
      * apply Qneg_true in N. change 0 with (inject_Z 0) in N.
        rewrite <- Zlt_Qlt in N. rewrite <- inject_Z_opp.
        subst a. rewrite Z.abs_neq by lia. rewrite Z.opp_involutive.
        reflexivity.
      * assert (H : ~ inject_Z z < 0).
        { intros C. apply Qneg_true in C. congruence. }
        change 0 with (inject_Z 0) in H. rewrite <- Zlt_Qlt in H.
        subst a. rewrite Z.abs_eq by lia. reflexivity.
Qed.

(** In the normal range rounding gives a finite number, with a relative
    error of at most [2 ^ (-53)]. *)
Lemma round64_near (q : Q) :
  2 ^ (-1022) <= Qabs q -> Qabs q <= 2 ^ 53 ->
  exists r, round64 q = Fin r /\ Qabs (r - q) <= Qabs q * 2 ^ (-53).
Proof.
  intros Lo Hi. unfold round64.
  pose proof (Qred_correct q) as Eq.
  set (q' := Qred q) in *.
  rewrite <- Eq in Lo, Hi. clearbody q'.
  pose proof (two_pos (-1022)) as P0.
  destruct (Qeq_bool q' 0) eqn:Z0.
  { apply Qeq_bool_iff in Z0. rewrite Z0 in Lo. cbn in Lo. lra. }
  set (a := Qabs q') in *.
  assert (Ha : 0 < a) by lra.
  destruct (binade_spec a Ha) as [B1 B2].
  set (e := binade a) in *.
  assert (Ee : (-1022 <= e)%Z).
  { assert (X : (-1022 < e + 1)%Z).
    { apply two_lt_inv. apply Qle_lt_trans with a; assumption. }
    lia. }
  rewrite Z.max_l by lia.
  set (u := 2 ^ (e - 52)).
  assert (Pu : 0 < u) by apply two_pos.
  set (n := roundHalfEven (a / u)).
  pose proof (roundHalfEven_near (a / u)) as Hn. fold n in Hn.
  apply Qabs_Qle_condition in Hn. destruct Hn as [Hn1 Hn2].
  assert (Eu : u == 2 ^ e * 2 ^ (-52)).
  { unfold u. rewrite <- two_add. reflexivity. }
  assert (E52 : 2 ^ (-52) == 2 * 2 ^ (-53)) by reflexivity.
  assert (E53 : 0 < 2 ^ (-53)) by apply two_pos.
  assert (L53 : 2 ^ (-53) <= 1 # 2) by (apply Qle_bool_iff; reflexivity).
  assert (Em : a / u * u == a) by (field; lra).
  set (m := a / u) in *.
  set (r := inject_Z n * u).
  assert (D1 : r - a <= a * 2 ^ (-53)).
  { unfold r. rewrite <- Em at 1.
    apply Qle_trans with ((1 # 2) * u).
    - assert (X : inject_Z n * u - m * u == (inject_Z n - m) * u) by ring.
      rewrite X. apply Qmult_le_compat_r; lra.
    - rewrite Eu, E52.
      assert (X : (1 # 2) * (2 ^ e * (2 * 2 ^ (-53))) == 2 ^ e * 2 ^ (-53))
        by ring.
      rewrite X. apply Qmult_le_compat_r; lra. }
  assert (D2 : - (a * 2 ^ (-53)) <= r - a).
  { unfold r. rewrite <- Em at 2.
    apply Qle_trans with (- ((1 # 2) * u)).
    - apply Qopp_le_compat. rewrite Eu, E52.
      assert (X : (1 # 2) * (2 ^ e * (2 * 2 ^ (-53))) == 2 ^ e * 2 ^ (-53))
        by ring.
      rewrite X. apply Qmult_le_compat_r; lra.
    - assert (X : inject_Z n * u - m * u == (inject_Z n - m) * u) by ring.
      rewrite X.
      assert (Y : - ((1 # 2) * u) == (- (1 # 2)) * u) by ring.
      rewrite Y. apply Qmult_le_compat_r; lra. }
  assert (Big : r < 2 ^ 1024).
  { apply Qle_lt_trans with (2 ^ 54); [| exact two_54_1024].
    assert (X : 2 ^ 54 == 2 * 2 ^ 53) by reflexivity.
    assert (Y : a * 2 ^ (-53) <= a).
    { rewrite <- (Qmult_1_r a) at 2. apply Qmult_le_l; lra. }
    lra. }
  destruct (Qle_bool (2 ^ 1024) r) eqn:O.
  { apply Qle_bool_iff in O. lra. }
  eexists. split; [reflexivity |].
  rewrite <- Eq, Qred_correct, signed_abs. fold a.
  destruct (Qneg q').
  - rewrite Qabs_opp. apply Qabs_Qle_condition. split; assumption.
  - apply Qabs_Qle_condition. split; assumption.
Qed.

Lemma Qfloor_unique (r : Q) (k : Z) :
  inject_Z k <= r -> r < inject_Z (k + 1) -> Qfloor r = k.
Proof.
  intros H1 H2.
  pose proof (Qfloor_le r) as F1. pose proof (Qlt_floor r) as F2.
  assert (A : (Qfloor r < k + 1)%Z).
  { rewrite Zlt_Qlt. eapply Qle_lt_trans; eassumption. }
  assert (B : (k < Qfloor r + 1)%Z).
  { rewrite Zlt_Qlt. eapply Qle_lt_trans; eassumption. }
  lia.
Qed.

(** The floor of a rounded quotient of integers below [2 ^ 53] is the
    integer quotient: the quotient is at least [1 / b] away from the next
    integer, which is more than the rounding error. *)
Lemma floor_round64_div_pos (a b : Z) :
  (0 < b)%Z -> (Z.abs a < 2 ^ 53)%Z -> (b < 2 ^ 53)%Z ->
  exists r, round64 (inject_Z a / inject_Z b) = Fin r /\
            Qfloor r = (a / b)%Z.
Proof.
  intros Hb Ha Hb'.
  set (k := (a / b)%Z).
  pose proof (Z.div_mod a b ltac:(lia)) as DM. fold k in DM.
  pose proof (Z.mod_pos_bound a b Hb) as MB.
  set (B := inject_Z b). set (A := inject_Z a).
  assert (PB : 1 <= B).
  { change 1 with (inject_Z 1). unfold B. rewrite <- Zle_Qle. lia. }
  destruct (Z.eq_dec (a mod b) 0) as [M0 | M0].
  - assert (E : A / B == inject_Z k).
    { unfold A, B. replace a with (k * b)%Z at 1 by lia.
      rewrite inject_Z_mult. field. fold B. lra. }
    rewrite (round64_comp _ _ E).
    assert (Hk : (Z.abs k < 2 ^ 53)%Z) by nia.
    rewrite (round64_integer k Hk). eexists. split; [reflexivity |].
    apply Qfloor_Z.
  - set (q := A / B).
    assert (Eq : q * B == A) by (unfold q; field; lra).
    assert (Eabs : Qabs q * B == Qabs A).
    { rewrite <- Eq, Qabs_Qmult, (Qabs_pos B) by lra. reflexivity. }
    assert (HA : Qabs A <= inject_Z (2 ^ 53 - 1)).
    { unfold A. change (Qabs (inject_Z a)) with (inject_Z (Z.abs a)).
      rewrite <- Zle_Qle. lia. }
    assert (HB : B <= inject_Z (2 ^ 53 - 1)).
    { unfold B. rewrite <- Zle_Qle. lia. }
    assert (HA0 : 1 <= Qabs A).
    { unfold A. change (Qabs (inject_Z a)) with (inject_Z (Z.abs a)).
      change 1 with (inject_Z 1). rewrite <- Zle_Qle.
      assert (a <> 0%Z) by (intros ->; apply M0; apply Z.mod_0_l; lia).
      lia. }
    assert (R1 : inject_Z k * B + 1 <= A).
    { unfold A, B. change 1 with (inject_Z 1).
      rewrite <- inject_Z_mult, <- inject_Z_plus, <- Zle_Qle. lia. }
    assert (R2 : A + 1 <= inject_Z (k + 1) * B).
    { unfold A, B. change 1 with (inject_Z 1).
      rewrite <- inject_Z_mult, <- inject_Z_plus, <- Zle_Qle. nia. }
    pose proof (Qabs_nonneg q) as Q0.
    assert (E53 : 2 ^ (-53) * inject_Z (2 ^ 53 - 1) < 1) by reflexivity.
    assert (P53 : 0 < 2 ^ (-53)) by reflexivity.
    assert (E1022 : 2 ^ (-1022) * inject_Z (2 ^ 53 - 1) < 1) by reflexivity.
    assert (E53' : inject_Z (2 ^ 53 - 1) < 2 ^ 53) by reflexivity.
    assert (P1022 : 0 < 2 ^ (-1022)) by reflexivity.
    set (eps := 2 ^ (-53)) in *. set (tiny := 2 ^ (-1022)) in *.
    set (big := inject_Z (2 ^ 53 - 1)) in *. set (top := 2 ^ 53) in *.
    assert (Lo : tiny <= Qabs q).
    { apply Qnot_lt_le. intros C. nra. }
    assert (Hi : Qabs q <= top) by nra.
    destruct (round64_near q Lo Hi) as [r [Er Hr]]. fold eps in Hr.
    exists r. split; [exact Er |].
    apply Qabs_Qle_condition in Hr. destruct Hr as [Hr1 Hr2].
    assert (EB : Qabs q * eps * B < 1) by nra.
    apply Qfloor_unique.
    + apply Qnot_lt_le. intros C. nra.
    + apply Qnot_le_lt. intros C. nra.
Qed.

Lemma floor_round64_div (a b : Z) :
  b <> 0%Z -> (Z.abs a < 2 ^ 53)%Z -> (Z.abs b < 2 ^ 53)%Z ->
  exists r, round64 (inject_Z a / inject_Z b) = Fin r /\
            Qfloor r = (a / b)%Z.
Proof.
  intros Hb Ha Hb'.
  destruct (Z.lt_trichotomy b 0) as [N | [Z0 | P]]; [| contradiction |].
  - assert (E : inject_Z a / inject_Z b == inject_Z (- a) / inject_Z (- b)).
    { assert (B0 : ~ inject_Z b == 0).
      { change 0 with (inject_Z 0). rewrite inject_Z_injective. exact Hb. }
      rewrite !inject_Z_opp. field. exact B0. }
    rewrite (round64_comp _ _ E), <- (Z.div_opp_opp a b Hb).
    apply floor_round64_div_pos; lia.
  - apply floor_round64_div_pos; lia.
Qed.

End Rounding.

(** ** Arithmetic on integers that are not rounded *)

Section IntegerArithmetic.

Lemma add_ofZ (a b : Z) :
  (Z.abs (a + b) < 2 ^ 53)%Z -> add (ofZ a) (ofZ b) = ofZ (a + b).
Proof.
  intros H. cbn [add ofZ]. rewrite <- (round64_integer _ H).
  apply round64_comp. now rewrite inject_Z_plus.
Qed.

Lemma sub_ofZ (a b : Z) :
  (Z.abs (a - b) < 2 ^ 53)%Z -> sub (ofZ a) (ofZ b) = ofZ (a - b).
Proof.
  intros H. cbn [sub ofZ]. rewrite <- (round64_integer _ H).
  apply round64_comp.
  unfold Z.sub. rewrite inject_Z_plus, inject_Z_opp. reflexivity.
Qed.

Lemma mul_ofZ (a b : Z) :
  (Z.abs (a * b) < 2 ^ 53)%Z -> mul (ofZ a) (ofZ b) = ofZ (a * b).
Proof.
  intros H. cbn [mul ofZ]. rewrite <- (round64_integer _ H).
  apply round64_comp. now rewrite inject_Z_mult.
Qed.

Lemma floor_div_ofZ (a b : Z) :
  b <> 0%Z -> (Z.abs a < 2 ^ 53)%Z -> (Z.abs b < 2 ^ 53)%Z ->
  floor (div (ofZ a) (ofZ b)) = ofZ (a / b).
Proof.
  intros Hb Ha Hb'. cbn [div ofZ].
  change 0 with (inject_Z 0). rewrite Qeq_bool_inject_Z.
  destruct (Z.eqb_spec b 0) as [E|_]; [contradiction|].
  destruct (floor_round64_div a b Hb Ha Hb') as (r & -> & Hr).
  cbn [floor]. now rewrite Hr.
Qed.

Lemma compare_ofZ (a b : Z) : compare (ofZ a) (ofZ b) = Some (a ?= b)%Z.
Proof.
  cbn [compare ofZ]. unfold Qcompare. simpl. now rewrite !Z.mul_1_r.
Qed.

Lemma ltb_ofZ (a b : Z) : ltb (ofZ a) (ofZ b) = (a <? b)%Z.
Proof. unfold ltb, Z.ltb. rewrite compare_ofZ. now destruct (a ?= b)%Z. Qed.

Lemma gtb_ofZ (a b : Z) : gtb (ofZ a) (ofZ b) = (a >? b)%Z.
Proof. unfold gtb, Z.gtb. rewrite compare_ofZ. now destruct (a ?= b)%Z. Qed.

Lemma leb_ofZ (a b : Z) : leb (ofZ a) (ofZ b) = (a <=? b)%Z.
Proof. unfold leb, Z.leb. rewrite compare_ofZ. now destruct (a ?= b)%Z. Qed.

Lemma geb_ofZ (a b : Z) : geb (ofZ a) (ofZ b) = (a >=? b)%Z.
Proof. unfold geb, Z.geb. rewrite compare_ofZ. now destruct (a ?= b)%Z. Qed.

Lemma strict_neq_ofZ (a b : Z) :
  strict_neq (ofZ a) (ofZ b) = negb (a =? b)%Z.
Proof.
  unfold strict_neq, strict_eq. rewrite compare_ofZ, Z.eqb_compare.
  now destruct (a ?= b)%Z.
Qed.

Lemma isInteger_ofZ (z : Z) : isInteger (ofZ z) = true.
Proof.
  cbn [isInteger ofZ]. rewrite Qfloor_Z. apply Qeq_bool_iff. reflexivity.
Qed.

Lemma truthy_ofZ (z : Z) : truthy (ofZ z) = negb (z =? 0)%Z.
Proof.
  cbn [truthy ofZ]. change 0 with (inject_Z 0). now rewrite Qeq_bool_inject_Z.
Qed.

Lemma rangeClamp_ofZ (v m M : Z) :
  rangeClamp (ofZ v) (ofZ m) (ofZ M) = ofZ (rangeClampZ v m M).
Proof.
  unfold rangeClamp, rangeClampZ. rewrite gtb_ofZ, ltb_ofZ.
  destruct (v >? M)%Z; [reflexivity|]. now destruct (v <? m)%Z.
Qed.

End IntegerArithmetic.

(** ** The clamp on integer arguments *)

Section ClampOnIntegers.

Lemma div_ofZ_zero (a : Z) :
  div (ofZ a) (ofZ 0) = if (a =? 0)%Z then NaN else Infinity (a <? 0)%Z.
Proof.
  cbn [div ofZ]. change 0 with (inject_Z 0) at 1 2.
  rewrite !Qeq_bool_inject_Z. cbn [Z.eqb].
  destruct (a =? 0)%Z; [reflexivity|]. f_equal.
  unfold Qneg, Qle_bool. simpl. rewrite Z.mul_1_r.
  rewrite Z.ltb_antisym. reflexivity.
Qed.

Lemma opt_max_ofZ (omax : option Z) :
  opt_coalesce (option_map ofZ omax) MAX_SAFE_INTEGER
  = ofZ (effectiveMax omax).
Proof. now destruct omax. Qed.

Lemma opt_min_ofZ (omin : option Z) :
  opt_coalesce (option_map ofZ omin) MIN_SAFE_INTEGER
  = ofZ (effectiveMin omin).
Proof. now destruct omin. Qed.

Lemma opt_base_ofZ (omin : option Z) :
  opt_or (option_map ofZ omin) (ofZ 0)
  = ofZ (stepBase omin).
Proof.
  destruct omin as [m|]; [|reflexivity].
  cbn [option_map opt_or]. unfold or_else. rewrite truthy_ofZ.
  destruct (Z.eqb_spec m 0) as [->|_]; reflexivity.
Qed.

(** With a zero step the quotient is NaN or an infinity; its product with
    the step and both candidates are then NaN. *)
Lemma zero_step_candidates (x base : number) :
  x = NaN \/ (exists s, x = Infinity s) ->
  let amountOfStepsDiff := floor x in
  let smallerPossibleValue := add base (mul amountOfStepsDiff (ofZ 0)) in
  let greaterPossibleValue :=
    add base (mul (add amountOfStepsDiff (ofZ 1)) (ofZ 0)) in
  mul (ofZ 0) amountOfStepsDiff = NaN
  /\ smallerPossibleValue = NaN /\ greaterPossibleValue = NaN.
Proof.
  intros [->|[s ->]]; cbn; destruct base; repeat split; reflexivity.
Qed.

Lemma div_by_zero_cases (x : number) :
  isNaN x = false ->
  div x (ofZ 0) = NaN \/ exists s, div x (ofZ 0) = Infinity s.
Proof.
  destruct x as [|s|q]; [discriminate | |]; intros _; cbn [div ofZ].
  - right. eauto.
  - change (Qeq_bool (inject_Z 0) 0) with true. cbn match.
    destruct (Qeq_bool q 0); [now left | right; eauto].
Qed.

Lemma isNaN_sub_ofZ (a b : Z) : isNaN (sub (ofZ a) (ofZ b)) = false.
Proof. cbn [sub ofZ]. apply round64_not_NaN. Qed.

(** With a zero step the range-clamped value is returned. *)
Lemma clampToNearestStepValue_zero_step (v : Z) (omin omax : option Z)
    (dir : option direction) :
  clampToNearestStepValue (ofZ v) (ofZ 0)
    (option_map ofZ omin) (option_map ofZ omax) dir
  = ofZ (rangeClampZ v (effectiveMin omin) (effectiveMax omax)).
Proof.
  unfold clampToNearestStepValue.
  rewrite opt_max_ofZ, opt_min_ofZ, opt_base_ofZ, rangeClamp_ofZ.
  rewrite !isInteger_ofZ. cbn [negb orb].
  set (M := effectiveMax omax).
  set (m := effectiveMin omin).
  set (b := stepBase omin).
  set (c := rangeClampZ v m M).
  pose proof (div_by_zero_cases _ (isNaN_sub_ofZ c b)) as Hx.
  destruct (zero_step_candidates _ (ofZ b) Hx) as (Hd & Hs & Hg).
  rewrite Hd, Hs, Hg.
  assert (Hdev : forall x, strict_neq (sub x NaN) (ofZ 0) = true).
  { intros [|?|?]; reflexivity. }
  rewrite Hdev.
  destruct dir as [d|]; cbn; rewrite ?andb_false_r; reflexivity.
Qed.

(** With a positive step, and no intermediate result rounded, the function
    computes [clampZ]. *)
Lemma clampToNearestStepValue_ofZ (v st : Z) (omin omax : option Z)
    (dir : option direction) :
  (0 < st)%Z ->
  exactSteps (rangeClampZ v (effectiveMin omin) (effectiveMax omax))
    (stepBase omin) st ->
  clampToNearestStepValue (ofZ v) (ofZ st)
    (option_map ofZ omin) (option_map ofZ omax) dir
  = ofZ (clampZ v st omin omax dir).
Proof.
  intros Hst Hx. unfold exactSteps in Hx. cbv zeta in Hx.
  unfold clampToNearestStepValue, clampZ.
  rewrite opt_max_ofZ, opt_min_ofZ, opt_base_ofZ, rangeClamp_ofZ.
  rewrite !isInteger_ofZ. cbn [negb orb].
  set (M := effectiveMax omax) in *.
  set (m := effectiveMin omin) in *.
  set (b := stepBase omin) in *.
  set (c := rangeClampZ v m M) in *.
  destruct (Z.eqb_spec st 0) as [E|_]; [lia|].
  pose proof (Z.mul_div_le (c - b) st Hst) as Hlo.
  pose proof (Z.mul_succ_div_gt (c - b) st Hst) as Hhi.
  set (k := ((c - b) / st)%Z) in *.
  destruct Hx as (HL & HU & HLb & HUb).
  apply Z.abs_lt in HL, HU, HLb, HUb.
  assert (Hk : (Z.abs k < 2 ^ 53)%Z).
  { destruct (Z.lt_trichotomy k 0) as [K|[K|K]]; nia. }
  assert (Hk' : (Z.abs (k + 1) < 2 ^ 53)%Z).
  { destruct (Z.lt_trichotomy (k + 1) 0) as [K|[K|K]]; nia. }
  assert (Hst' : (st < 2 ^ 53)%Z).
  { destruct (Z.eq_dec k 0) as [K|K]; [rewrite K in *; lia|].
    destruct (Z.lt_trichotomy k 0) as [K'|[K'|K']]; nia. }
  rewrite (sub_ofZ c b) by lia.
  rewrite (floor_div_ofZ (c - b) st) by lia.
  fold k.
  rewrite (mul_ofZ st k) by nia.
  rewrite (sub_ofZ (c - b) (st * k)) by nia.
  rewrite strict_neq_ofZ.
  rewrite (mul_ofZ k st) by nia.
  rewrite (add_ofZ b (k * st)) by nia.
  rewrite (add_ofZ k 1) by nia.
  rewrite (mul_ofZ (k + 1) st) by nia.
  rewrite (add_ofZ b ((k + 1) * st)) by nia.
  rewrite (sub_ofZ (b + (k + 1) * st) c) by nia.
  rewrite (sub_ofZ c (b + k * st)) by nia.
  rewrite !gtb_ofZ, geb_ofZ, leb_ofZ.
  destruct (negb _); [|reflexivity].
  destruct (_ && _); [reflexivity|].
  destruct (_ <=? _)%Z; reflexivity.
Qed.


End ClampOnIntegers.

Lemma rangeClampZ_bounds (v lo hi : Z) :
  (lo <= hi)%Z -> (lo <= rangeClampZ v lo hi <= hi)%Z.
Proof.
  intros H. unfold rangeClampZ.
  destruct (Z.gtb_spec v hi); [lia|]. destruct (Z.ltb_spec v lo); lia.
Qed.

Lemma rangeClampZ_id (r lo hi : Z) :
  (lo <= r <= hi)%Z -> rangeClampZ r lo hi = r.
Proof.
  intros H. unfold rangeClampZ.
  destruct (Z.gtb_spec r hi); [lia|]. destruct (Z.ltb_spec r lo); lia.
Qed.

(** Within an exact range every value has exact steps. *)
Lemma exactRange_exactSteps (st lo hi c : Z) :
  (0 <= st)%Z -> exactRange st lo hi -> (lo <= c <= hi)%Z ->
  exactSteps c lo st.
Proof.
  unfold exactRange, exactSteps. intros Hst Hx Hc. cbv zeta.
  destruct (Z.eq_dec st 0) as [-> | Hpos].
  - rewrite Z.div_0_r. lia.
  - pose proof (Z.mul_div_le (c - lo) st ltac:(lia)) as Hlo.
    assert (Hk : (0 <= (c - lo) / st)%Z) by (apply Z.div_pos; lia).
    nia.
Qed.

Lemma exactRange_rangeClampZ (v st lo hi : Z) :
  (0 <= st)%Z -> exactRange st lo hi -> (lo <= hi)%Z ->
  exactSteps (rangeClampZ v lo hi) lo st.
Proof.
  intros Hst H Hle. apply (exactRange_exactSteps st lo hi); try assumption.
  now apply rangeClampZ_bounds.
Qed.

Section ClampZ.

Variables (st : Z) (omin omax : option Z) (dir : option direction).

Local Abbreviation M := (effectiveMax omax).
Local Abbreviation m := (effectiveMin omin).
Local Abbreviation b := (stepBase omin).


(** A point of the lattice that lies in the range is left where it is. *)
Lemma clampZ_on_lattice (k : Z) :
  st <> 0%Z -> (m <= b + k * st <= M)%Z ->
  clampZ (b + k * st) st omin omax dir = (b + k * st)%Z.
Proof.
  intros Hst H. unfold clampZ. fold M m b.
  rewrite rangeClampZ_id by assumption.
  destruct (Z.eqb_spec st 0) as [E|_]; [contradiction|].
  replace (b + k * st - b)%Z with (k * st)%Z by lia.
  rewrite Z.div_mul by assumption.
  replace (k * st - st * k)%Z with 0%Z by lia. reflexivity.
Qed.

(** The result is the range-clamped value or a lattice point in range. *)
Lemma clampZ_result (v : Z) :
  (0 < st)%Z -> (m <= M)%Z ->
  clampZ v st omin omax dir = rangeClampZ v m M
  \/ exists k, clampZ v st omin omax dir = (b + k * st)%Z
               /\ (m <= b + k * st <= M)%Z.
Proof.
  intros Hst H. unfold clampZ. fold M m b.
  pose proof (rangeClampZ_bounds v m M H) as Hc.
  set (c := rangeClampZ v m M) in *.
  destruct (Z.eqb_spec st 0) as [E|_]; [lia|].
  pose proof (Z.mul_div_le (c - b) st Hst) as Hlo.
  pose proof (Z.mul_succ_div_gt (c - b) st Hst) as Hhi.
  set (k := ((c - b) / st)%Z) in *.
  destruct (negb _); [|now left].
  match goal with |- context [if ?cond then _ else _] =>
    destruct cond eqn:E1 end.
  - right. exists k. split; [reflexivity|].
    apply andb_prop in E1 as [_ E1]. rewrite Z.geb_leb in E1.
    apply Z.leb_le in E1. lia.
  - destruct (Z.leb_spec (b + (k + 1) * st) M); [|now left].
    right. exists (k + 1)%Z. split; [reflexivity|]. lia.
Qed.

(** With ordered bounds the result lies between them. *)
Lemma clampZ_in_range (v : Z) :
  (0 <= st)%Z -> (m <= M)%Z ->
  (m <= clampZ v st omin omax dir <= M)%Z.
Proof.
  intros Hst H.
  pose proof (rangeClampZ_bounds v m M H) as Hc.
  destruct (Z.eq_dec st 0) as [E|E].
  - unfold clampZ. fold M m b. destruct (Z.eqb_spec st 0); [exact Hc | lia].
  - destruct (clampZ_result v ltac:(lia) H) as [-> | (k & -> & Hk)];
      assumption.
Qed.


(** Off the lattice: the smaller candidate is returned when it is not below
    the minimum and either the greater one exceeds the maximum or the
    smaller one is preferred; otherwise the greater one when it does not
    exceed the maximum; otherwise the range-clamped value. *)
Lemma clampZ_off_lattice (v : Z) :
  (0 < st)%Z ->
  let c := rangeClampZ v m M in
  let smaller := (b + (c - b) / st * st)%Z in
  let greater := (smaller + st)%Z in
  c <> smaller ->
  clampZ v st omin omax dir
  = if ((greater >? M)%Z
        || match dir with
           | Some d => Direction_eqb d up
           | None => (greater - c >? c - smaller)%Z
           end)
       && (smaller >=? m)%Z
    then smaller
    else if (greater <=? M)%Z then greater else c.
Proof.
  intros Hst c smaller greater Hoff. unfold clampZ. fold M m b. fold c.
  destruct (Z.eqb_spec st 0) as [E|_]; [lia|].
  replace (b + ((c - b) / st + 1) * st)%Z with greater
    by (unfold greater, smaller; lia).
  fold smaller.
  destruct (Z.eqb_spec (c - b - st * ((c - b) / st)) 0) as [E|_];
    [unfold smaller in Hoff; lia|].
  reflexivity.
Qed.

End ClampZ.

(** ** The claims about the clamp *)

Section ClampClaims.

(** Both bounds supplied, the range exact. *)
Lemma clamp_as_clampZ (v st lo hi : Z) (dir : option direction) :
  (0 < st)%Z -> (lo <= hi)%Z -> exactRange st lo hi ->
  clamp v st lo hi dir = ofZ (clampZ v st (Some lo) (Some hi) dir).
Proof.
  intros Hst Hle Hx.
  apply (clampToNearestStepValue_ofZ v st (Some lo) (Some hi) dir Hst).
  apply exactRange_rangeClampZ; (assumption || lia).
Qed.

(** Where the arithmetic is rounded the function leaves the integer
    computation.  With the safe-integer limits as bounds the distance of a
    value from the origin of the lattice is not a binary64 number: the
    deviation of a value off the lattice can round to zero, a candidate can
    round to a value off the lattice, and a candidate can round past the
    maximum. *)
Lemma clamp_rounding_examples :
  let lo := (- (2 ^ 53 - 1))%Z in
  let hi := (2 ^ 53 - 1)%Z in
  clamp 2 2 lo hi None = ofZ 2
  /\ clampZ 2 2 (Some lo) (Some hi) None = 3%Z
  /\ clamp 4 3 lo hi (Some down) = ofZ 4
  /\ clamp 4 3 lo hi (Some up) = ofZ 4
  /\ clamp 3 3 lo hi (Some up) = ofZ 1
  /\ clamp 1 3 lo hi (Some up) = ofZ (-1)
  /\ clamp hi 3 lo hi None = ofZ (2 ^ 53).
Proof.
  vm_compute. repeat split.
Qed.

(** C1, as stated, fails: clamp(value=5, step=10, min=0, max=100) is not
    0. *)
Lemma clamp_tie_example_is_not_lower :
  clamp 5 10 0 100 None <> ofZ 0.
Proof.
  vm_compute. discriminate.
Qed.

(** C1 (amended): with no direction given, step > 0 and exact steps, when
    the range-clamped value is equidistant from the two adjacent step
    boundaries the result is the upper boundary when it does not exceed the
    maximum; otherwise the lower boundary when it is not below the minimum;
    otherwise the range-clamped value.  The bounds are the supplied ones or
    the safe-integer limits, and the lattice starts at the supplied minimum
    or at zero. *)
Theorem clamp_tie_picks_upper (v step : Z) (min max : option Z) :
  let lo := effectiveMin min in
  let hi := effectiveMax max in
  let base := stepBase min in
  let c := rangeClampZ v lo hi in
  let lower := (base + (c - base) / step * step)%Z in
  let upper := (lower + step)%Z in
  (0 < step)%Z -> exactSteps c base step ->
  (upper - c = c - lower)%Z ->
  clampToNearestStepValue (ofZ v) (ofZ step)
    (option_map ofZ min) (option_map ofZ max) None
  = ofZ (if (upper <=? hi)%Z then upper
         else if (lo <=? lower)%Z then lower else c).
Proof.
  intros lo hi base c lower upper Hst Hx Htie.
  rewrite clampToNearestStepValue_ofZ by assumption. f_equal.
  rewrite clampZ_off_lattice by (try assumption; fold lo hi base c lower; lia).
  fold lo hi base c lower upper.
  destruct (Z.gtb_spec upper hi), (Z.leb_spec upper hi),
    (Z.gtb_spec (upper - c) (c - lower)), (Z.geb_spec lower lo),
    (Z.leb_spec lo lower); cbn [orb andb]; try reflexivity; lia.
Qed.

(** The example of C1 under the amended rule: the result is 10. *)
Lemma clamp_tie_picks_upper_witness :
  clamp 5 10 0 100 None = ofZ 10.
Proof.
  apply (clamp_tie_picks_upper 5 10 (Some 0%Z) (Some 100%Z));
    vm_compute; repeat split; congruence.
Defined.

(** C3, as stated, fails: with direction 'down' the lower boundary 0 lies
    within [0, 100] and the upper boundary is returned; with direction 'up'
    the upper boundary 10 lies within [0, 100] and the lower one is
    returned. *)
Lemma clamp_direction_is_reversed :
  clamp 3 10 0 100 (Some down) <> ofZ 0
  /\ clamp 7 10 0 100 (Some up) <> ofZ 10.
Proof.
  split; vm_compute; discriminate.
Qed.

(** C3 (amended): with step > 0 and exact steps, when the range-clamped
    value is off the lattice, direction 'up' selects the lower boundary
    when it is not below the minimum, otherwise the upper boundary when it
    does not exceed the maximum, otherwise the range-clamped value; and
    direction 'down' selects the upper boundary when it does not exceed the
    maximum, otherwise the lower boundary when it is not below the minimum,
    otherwise the range-clamped value. *)
Theorem clamp_direction (v step : Z) (min max : option Z) :
  let lo := effectiveMin min in
  let hi := effectiveMax max in
  let base := stepBase min in
  let c := rangeClampZ v lo hi in
  let lower := (base + (c - base) / step * step)%Z in
  let upper := (lower + step)%Z in
  (0 < step)%Z -> exactSteps c base step ->
  c <> lower ->
  clampToNearestStepValue (ofZ v) (ofZ step)
    (option_map ofZ min) (option_map ofZ max) (Some up)
  = ofZ (if (lo <=? lower)%Z then lower
         else if (upper <=? hi)%Z then upper else c)
  /\ clampToNearestStepValue (ofZ v) (ofZ step)
       (option_map ofZ min) (option_map ofZ max) (Some down)
     = ofZ (if (upper <=? hi)%Z then upper
            else if (lo <=? lower)%Z then lower else c).
Proof.
  intros lo hi base c lower upper Hst Hx Hoff.
  rewrite !clampToNearestStepValue_ofZ by assumption.
  rewrite !clampZ_off_lattice by assumption.
  fold lo hi base c lower upper. cbn [Direction_eqb].
  split; f_equal;
    destruct (Z.gtb_spec upper hi), (Z.leb_spec upper hi),
      (Z.geb_spec lower lo), (Z.leb_spec lo lower);
    cbn [orb andb]; try reflexivity; lia.
Qed.

Lemma clamp_direction_witness :
  clamp 3 10 0 100 (Some up) = ofZ 0
  /\ clamp 3 10 0 100 (Some down) = ofZ 10.
Proof.
  apply (clamp_direction 3 10 (Some 0%Z) (Some 100%Z));
    vm_compute; repeat split; congruence.
Defined.




End ClampClaims.

(** ** The range law *)

Section RangeLaw.

Lemma leb_Fin (x y : Q) : leb (Fin x) (Fin y) = true <-> x <= y.
Proof.
  unfold leb. cbn [compare]. rewrite Qle_alt.
  destruct (x ?= y); split; congruence.
Qed.

Lemma geb_Fin (x y : Q) : geb (Fin x) (Fin y) = true <-> y <= x.
Proof.
  unfold geb. cbn [compare]. rewrite Qle_alt, <- (Qcompare_antisym x y).
  destruct (x ?= y); cbn [CompOpp]; split; congruence.
Qed.

Lemma gtb_Fin (x y : Q) : gtb (Fin x) (Fin y) = true <-> y < x.
Proof.
  unfold gtb. cbn [compare]. rewrite (Qgt_alt x y).
  destruct (x ?= y); split; congruence.
Qed.

Lemma ltb_Fin (x y : Q) : ltb (Fin x) (Fin y) = true <-> x < y.
Proof.
  unfold ltb. cbn [compare]. rewrite (Qlt_alt x y).
  destruct (x ?= y); split; congruence.
Qed.



(** The range law on integers: step not negative, ordered bounds, exact
    steps. *)
Lemma clamp_range_integer (v st : Z) (omin omax : option Z)
    (dir : option direction) :
  let lo := effectiveMin omin in
  let hi := effectiveMax omax in
  (0 <= st)%Z -> (lo <= hi)%Z ->
  exactSteps (rangeClampZ v lo hi) (stepBase omin) st ->
  exists r, clampToNearestStepValue (ofZ v) (ofZ st)
              (option_map ofZ omin) (option_map ofZ omax) dir = ofZ r
            /\ (lo <= r <= hi)%Z.
Proof.
  intros lo hi Hst Hle Hx.
  destruct (Z.eq_dec st 0) as [-> | Hpos].
  - rewrite clampToNearestStepValue_zero_step. eexists.
    split; [reflexivity|]. now apply rangeClampZ_bounds.
  - rewrite clampToNearestStepValue_ofZ by (try assumption; lia).
    eexists. split; [reflexivity|]. now apply clampZ_in_range.
Qed.

End RangeLaw.




Section Matcher.

Context {R : Type}.

Lemma greedy_sound (class : ascii -> bool)
    (k : jsstring -> jsstring -> option R) (s taken : jsstring) (r : R) :
  greedy class k taken s = Some r ->
  exists run rest,
    s = (run ++ rest)%list /\ forallb class run = true
    /\ k (taken ++ run)%list rest = Some r.
Proof.
  revert taken. induction s as [|c s IH]; intros taken H; cbn [greedy] in H.
  - exists [], []. rewrite (app_nil_r taken). repeat split. exact H.
  - assert (Hskip : k taken (c :: s) = Some r ->
                    exists run rest,
                      c :: s = (run ++ rest)%list /\ forallb class run = true
                      /\ k (taken ++ run)%list rest = Some r).
    { intros Hk. exists [], (c :: s). rewrite (app_nil_r taken).
      repeat split. exact Hk. }
    destruct (class c) eqn:Hc; [|auto].
    destruct (greedy class k (taken ++ [c]) s) as [r'|] eqn:Hg; [|auto].
    injection H as ->.
    destruct (IH _ Hg) as (run & rest & -> & Hrun & Hk).
    exists (c :: run), rest. cbn [forallb app]. rewrite Hc, Hrun.
    rewrite <- app_assoc in Hk. repeat split. exact Hk.
Qed.

Lemma greedy_fallback (class : ascii -> bool)
    (k : jsstring -> jsstring -> option R) (s taken : jsstring) :
  k taken s <> None -> greedy class k taken s <> None.
Proof.
  intros H. destruct s as [|c s]; cbn [greedy]; [assumption|].
  destruct (class c); [|assumption].
  destruct (greedy class k (taken ++ [c]) s); [discriminate|assumption].
Qed.

Lemma greedy_complete (class : ascii -> bool)
    (k : jsstring -> jsstring -> option R) (run rest taken : jsstring) :
  forallb class run = true -> k (taken ++ run)%list rest <> None ->
  greedy class k taken (run ++ rest) <> None.
Proof.
  revert taken. induction run as [|c run IH]; intros taken Hrun Hk.
  - rewrite app_nil_r in Hk. now apply greedy_fallback.
  - cbn [forallb] in Hrun. apply andb_prop in Hrun as [Hc Hrun].
    cbn [app greedy]. rewrite Hc.
    specialize (IH (taken ++ [c])%list Hrun).
    rewrite <- app_assoc in IH. specialize (IH Hk).
    destruct (greedy class k (taken ++ [c]) (run ++ rest));
      [discriminate|contradiction].
Qed.

Lemma optional_sound (class : ascii -> bool)
    (k : option ascii -> jsstring -> option R) (s : jsstring) (r : R) :
  optional class k s = Some r ->
  (exists c rest, s = c :: rest /\ class c = true /\ k (Some c) rest = Some r)
  \/ k None s = Some r.
Proof.
  unfold optional. destruct s as [|c s]; [auto|].
  destruct (class c) eqn:Hc; [|auto].
  destruct (k (Some c) s) as [r'|] eqn:Hk; [|auto].
  intros [= ->]. left. eauto.
Qed.

Lemma optional_complete (class : ascii -> bool)
    (k : option ascii -> jsstring -> option R) (s : jsstring) :
  (exists c rest, s = c :: rest /\ class c = true /\ k (Some c) rest <> None)
  \/ k None s <> None ->
  optional class k s <> None.
Proof.
  unfold optional. intros [(c & rest & -> & Hc & Hk)|Hk].
  - rewrite Hc. destruct (k (Some c) rest); [discriminate|contradiction].
  - destruct s as [|c s]; [assumption|].
    destruct (class c); [|assumption].
    destruct (k (Some c) s); [discriminate|assumption].
Qed.

End Matcher.

Lemma push_Some (c : option jsstring) (r : option captures) (caps : captures) :
  push c r = Some caps -> exists caps', r = Some caps' /\ caps = c :: caps'.
Proof.
  destruct r as [caps'|]; cbn; [|discriminate]. intros [= <-]. eauto.
Qed.

Lemma push_not_None (c : option jsstring) (r : option captures) :
  r <> None -> push c r <> None.
Proof.
  destruct r; cbn; [discriminate|auto].
Qed.

(** The backtracking matcher accepts exactly the words of the grammar. *)
Lemma matchPieces_sound (ps : regex) :
  forall s caps, matchPieces ps s = Some caps -> Matches ps s caps.
Proof.
  induction ps as [|p ps IH]; intros s caps H.
  - destruct s; [|discriminate]. injection H as <-. constructor.
  - destruct p as [class|class|class|class]; cbn [matchPieces] in H.
    + apply optional_sound in H as [(c & rest & -> & Hc & H)|H];
        apply push_Some in H as (caps' & H & ->);
        constructor; auto.
    + apply optional_sound in H as [(c & rest & -> & Hc & H)|H];
        apply push_Some in H as (caps' & H & ->);
        constructor; auto.
    + apply greedy_sound in H as (run & rest & -> & Hrun & H).
      apply push_Some in H as (caps' & H & ->).
      constructor; auto.
    + apply greedy_sound in H as (run & rest & -> & Hrun & H).
      constructor; auto.
Qed.

Lemma matchPieces_complete (ps : regex) (s : jsstring) (caps : captures) :
  Matches ps s caps -> matchPieces ps s <> None.
Proof.
  induction 1; cbn [matchPieces].
  - discriminate.
  - apply optional_complete. left. eexists _, _.
    split; [reflexivity|]. split; [assumption|]. now apply push_not_None.
  - apply optional_complete. right. now apply push_not_None.
  - apply optional_complete. left. eexists _, _.
    split; [reflexivity|]. split; [assumption|]. now apply push_not_None.
  - apply optional_complete. right. now apply push_not_None.
  - apply greedy_complete; [assumption|]. now apply push_not_None.
  - apply greedy_complete; assumption.
Qed.

Lemma exec_None_iff (s : jsstring) :
  exec pastedInputParsingRegex s = None <-> ~ inGrammar s.
Proof.
  unfold exec, inGrammar. split.
  - intros H (caps & Hm). apply matchPieces_complete in Hm.
    destruct (matchPieces pastedInputParsingRegex s); [discriminate|auto].
  - intros H. destruct (matchPieces pastedInputParsingRegex s) eqn:E;
      [|reflexivity].
    exfalso. apply H. eexists. apply matchPieces_sound. exact E.
Qed.

(** ** getPossibleNumberSubstring *)

Lemma join_filter_Boolean (a : captures) : join (filter Boolean a) = join a.
Proof.
  induction a as [|x a IH]; [reflexivity|].
  destruct x as [[|c s]|]; cbn [filter Boolean]; try exact IH.
  unfold join in *. cbn [flat_map]. now rewrite IH.
Qed.

Lemma Matches_capture_optional_inv class ps s caps :
  Matches (CaptureOptional class :: ps) s caps ->
  exists taken caps' rest,
    caps = Some taken :: caps'
    /\ (taken = [] \/ exists c, taken = [c] /\ class c = true)
    /\ Matches ps rest caps'.
Proof.
  intros H. inversion H; subst; do 3 eexists;
    (split; [reflexivity|]); (split; [|eassumption]);
    first [left; reflexivity | right; eauto | assumption].
Qed.

Lemma Matches_optional_capture_inv class ps s caps :
  Matches (OptionalCapture class :: ps) s caps ->
  exists taken caps' rest,
    caps = taken :: caps'
    /\ (taken = None \/ exists c, taken = Some [c] /\ class c = true)
    /\ Matches ps rest caps'.
Proof.
  intros H. inversion H; subst; do 3 eexists;
    (split; [reflexivity|]); (split; [|eassumption]);
    first [left; reflexivity | right; eauto | assumption].
Qed.

Lemma Matches_capture_star_inv class ps s caps :
  Matches (CaptureStar class :: ps) s caps ->
  exists run caps' rest,
    caps = Some run :: caps' /\ forallb class run = true
    /\ Matches ps rest caps'.
Proof.
  intros H. inversion H; subst; do 3 eexists;
    (split; [reflexivity|]); (split; [|eassumption]);
    first [left; reflexivity | right; eauto | assumption].
Qed.

Lemma Matches_star_inv class ps s caps :
  Matches (Star class :: ps) s caps -> exists rest, Matches ps rest caps.
Proof.
  intros H. inversion H; subst; eauto.
Qed.

Lemma Matches_end_inv s caps : Matches [] s caps -> caps = [].
Proof.
  intros H. now inversion H.
Qed.

(** The shape of the captures of the expression of pasted input. *)
Lemma pasted_captures (s : jsstring) (caps : captures) :
  Matches pastedInputParsingRegex s caps ->
  exists sign digits sep fraction,
    caps = [Some sign; Some digits; sep; Some fraction]
    /\ (sign = [] \/ exists c, sign = [c] /\ isSign c = true)
    /\ forallb isDigit digits = true
    /\ (sep = None \/ exists c, sep = Some [c] /\ isSeparator c = true)
    /\ forallb isDigit fraction = true.
Proof.
  unfold pastedInputParsingRegex. intros H.
  apply Matches_capture_optional_inv in H
    as (sign & caps1 & s1 & -> & Hsign & H).
  apply Matches_star_inv in H as (s2 & H).
  apply Matches_capture_star_inv in H as (digits & caps3 & s3 & -> & Hd & H).
  apply Matches_optional_capture_inv in H
    as (sep & caps4 & s4 & -> & Hsep & H).
  apply Matches_capture_star_inv in H
    as (fraction & caps5 & s5 & -> & Hf & H).
  apply Matches_star_inv in H as (s6 & H).
  apply Matches_end_inv in H as ->.
  exists sign, digits, sep, fraction. auto.
Qed.

(** C9: the extractor returns NoMatch exactly when the sanitized string is
    not a word of the grammar, or the raw string is not empty while its
    sanitized form is; the empty raw string yields the empty string. *)
Theorem substring_NoMatch_iff (value : jsstring) (allowDecimal : bool) :
  (getPossibleNumberSubstring value allowDecimal = None
   <-> ~ inGrammar (prepareStringValue value)
       \/ (value <> [] /\ prepareStringValue value = []))
  /\ getPossibleNumberSubstring [] allowDecimal = Some [].
Proof.
  split; [|now destruct allowDecimal].
  unfold getPossibleNumberSubstring.
  destruct (exec pastedInputParsingRegex (prepareStringValue value))
    as [match_|] eqn:E.
  - assert (Hin : inGrammar (prepareStringValue value)).
    { unfold exec in E. apply push_Some in E as (caps & E & _).
      exists caps. now apply matchPieces_sound. }
    destruct value as [|c value].
    + cbn. split; [discriminate|]. intros [H|[H _]]; contradiction.
    + destruct (prepareStringValue (c :: value)) as [|d prepared] eqn:Ep.
      * cbn. split; [|reflexivity]. intros _. right. split; congruence.
      * cbn. split; [discriminate|].
        intros [H|[_ H]]; [contradiction|discriminate].
  - apply exec_None_iff in E. split; [|reflexivity]. intros _. now left.
Qed.

(** Both ways to NoMatch occur, and a lone sign is a word of the grammar. *)
Lemma substring_NoMatch_examples :
  ~ inGrammar (prepareStringValue (str "1-2"))
  /\ getPossibleNumberSubstring (str "1-2") true = None
  /\ prepareStringValue (str "abc") = []
  /\ getPossibleNumberSubstring (str "abc") true = None
  /\ getPossibleNumberSubstring (str "-") true = Some (str "-").
Proof.
  split; [apply exec_None_iff|]; vm_compute; repeat split.
Qed.

Lemma isSign_cases (c : ascii) :
  isSign c = true -> c = "-"%char \/ c = "+"%char.
Proof.
  unfold isSign. intros H. apply orb_prop in H as [H|H];
    apply Ascii.eqb_eq in H; auto.
Qed.

(** C10: without decimals the extracted string is an optional sign followed
    by digits; it holds no period and no comma. *)
Theorem integer_substring_shape (value r : jsstring) :
  getPossibleNumberSubstring value false = Some r ->
  (exists sign digits,
     r = (sign ++ digits)%list
     /\ (sign = [] \/ sign = str "-" \/ sign = str "+")
     /\ forallb isDigit digits = true)
  /\ ~ In "."%char r /\ ~ In ","%char r.
Proof.
  unfold getPossibleNumberSubstring, exec. intros H.
  destruct (matchPieces pastedInputParsingRegex (prepareStringValue value))
    as [caps|] eqn:E; [|discriminate].
  cbn [push option_map] in H.
  destruct (_ && _); [discriminate|]. injection H as <-.
  apply matchPieces_sound, pasted_captures in E
    as (sign & digits & sep & fraction & -> & Hsign & Hdigits & _ & _).
  cbn [slice skipn firstn Nat.sub]. rewrite join_filter_Boolean.
  unfold join. cbn [flat_map]. rewrite app_nil_r.
  assert (Hs : sign = [] \/ sign = str "-" \/ sign = str "+").
  { destruct Hsign as [->|(c & -> & Hc)]; [now left|].
    apply isSign_cases in Hc as [->| ->]; auto. }
  assert (Hno : forall c, isDigit c = false -> isSign c = false ->
                          ~ In c (sign ++ digits)%list).
  { intros c Hd Hsg Hin. apply in_app_or in Hin as [Hin|Hin].
    - destruct Hs as [->|[->| ->]]; cbn in Hin;
        intuition (subst; discriminate).
    - rewrite forallb_forall in Hdigits. apply Hdigits in Hin. congruence. }
  split; [eauto|]. split; apply Hno; reflexivity.
Qed.

Lemma integer_substring_shape_witness :
  (exists sign digits,
     str "-12" = (sign ++ digits)%list
     /\ (sign = [] \/ sign = str "-" \/ sign = str "+")
     /\ forallb isDigit digits = true)
  /\ ~ In "."%char (str "-12") /\ ~ In ","%char (str "-12").
Proof.
  apply (integer_substring_shape (str "- $12,5k") (str "-12")).
  vm_compute. reflexivity.
Defined.

(** C4: on "$123abc.45k" with decimals allowed the code returns "123.45":
    the letters are removed by the sanitizer before the expression is
    applied, so the string is not rejected. *)
Theorem substring_of_mixed_letters :
  prepareStringValue (str "$123abc.45k") = str "123.45"
  /\ getPossibleNumberSubstring (str "$123abc.45k") true
     = Some (str "123.45").
Proof.
  split; vm_compute; reflexivity.
Qed.

(** ** getParsedValue *)

(** C2, as stated, fails: the value of an absent or empty candidate, of a
    lone sign and of "abc123def" is not the number 0. *)
Lemma getParsedValue_value_is_not_zero :
  getParsedValue None <> {| valid := true; value := Some (ofZ 0) |}
  /\ getParsedValue (Some []) <> {| valid := true; value := Some (ofZ 0) |}
  /\ getParsedValue (Some (str "-"))
     <> {| valid := false; value := Some (ofZ 0) |}
  /\ getParsedValue (Some (str "abc123def"))
     <> {| valid := false; value := Some (ofZ 0) |}.
Proof.
  repeat split; vm_compute; discriminate.
Qed.

(** C2 (amended): the value is null where there is no number: an absent or
    empty candidate gives a valid result with the value null; a string
    that is not empty and whose conversion is NaN, such as a lone sign or
    "abc123def", gives an invalid result with the value null; every other
    string gives a valid result with the converted number, so "123." gives
    123. *)
Theorem getParsedValue_null_value :
  getParsedValue None = {| valid := true; value := None |}
  /\ getParsedValue (Some []) = {| valid := true; value := None |}
  /\ getParsedValue (Some (str "-")) = {| valid := false; value := None |}
  /\ getParsedValue (Some (str "abc123def"))
     = {| valid := false; value := None |}
  /\ getParsedValue (Some (str "123."))
     = {| valid := true; value := Some (ofZ 123) |}
  /\ (forall s, s <> [] -> isNaN (Number s) = true ->
                getParsedValue (Some s)
                = {| valid := false; value := None |})
  /\ (forall s, s <> [] -> isNaN (Number s) = false ->
                getParsedValue (Some s)
                = {| valid := true; value := Some (Number s) |}).
Proof.
  do 5 (split; [vm_compute; reflexivity|]).
  split; intros s Hs H; (destruct s as [|c s]; [contradiction|]);
    cbn [getParsedValue]; now rewrite H.
Qed.

Lemma getParsedValue_null_value_witness :
  getParsedValue (Some (str "+."))
  = {| valid := false; value := None |}
  /\ getParsedValue (Some (str "0.5"))
     = {| valid := true; value := Some (Number (str "0.5")) |}.
Proof.
  destruct getParsedValue_null_value as (_ & _ & _ & _ & _ & H1 & H2).
  split; [apply (H1 (str "+.")) | apply (H2 (str "0.5"))];
    vm_compute; congruence.
Defined.

(** ** The validator *)

(** C6: on a number that is not NaN the validator reports the first
    violation that applies in the order sign, fraction, min, max; so -5.5
    under positiveOnly without fraction is reported as negative, and under
    such a configuration no negative or non-integer number is valid,
    whatever the bounds. *)
Theorem validator_check_order :
  (forall p v, isNaN v = false ->
     validator p (Some v) = firstApplicable (violationsInOrder p v))
  /\ validator {| positiveOnly := true; withoutFraction := true;
                  min := None; max := None |} (Some (Fin (-11 # 2)))
     = Some NEGATIVE_VALUE_IS_NOT_ALLOWED
  /\ (forall mn mx v,
        ltb v (ofZ 0) = true \/ isInteger v = false ->
        validator {| positiveOnly := true; withoutFraction := true;
                     min := mn; max := mx |} (Some v) <> None).
Proof.
  split; [|split].
  - intros p v Hnan. unfold validator, violationsInOrder.
    rewrite Hnan. cbn [firstApplicable].
    repeat match goal with |- context [if ?c then _ else _] =>
      destruct c; try reflexivity end.
  - vm_compute. reflexivity.
  - intros mn mx v H. unfold validator. cbn [positiveOnly withoutFraction].
    destruct (isNaN v); [discriminate|]. cbn [andb].
    destruct (ltb v (ofZ 0)); [discriminate|].
    destruct H as [H|H]; [discriminate|]. rewrite H. discriminate.
Qed.

Lemma validator_check_order_witness :
  validator {| positiveOnly := true; withoutFraction := true;
               min := Some (ofZ 0); max := Some (ofZ 10) |}
    (Some (Fin (5 # 2)))
  <> None.
Proof.
  apply (proj2 (proj2 validator_check_order)). right. vm_compute. reflexivity.
Defined.

(** ** The order of the bounds *)

Lemma gtb_asym (a b : number) : gtb a b = true -> gtb b a = false.
Proof.
  unfold gtb. destruct a as [|[|]|x], b as [|[|]|y]; cbn [compare];
    try discriminate; try reflexivity.
  rewrite <- (Qcompare_antisym x y). destruct (x ?= y); cbn; congruence.
Qed.

(** C5, as stated, fails: the validator applies min and max as they are
    given; under {min: 10, max: 0} the value 5 is below the minimum, under
    {min: 0, max: 10} it is valid. *)
Lemma validator_does_not_swap_bounds :
  validator {| positiveOnly := false; withoutFraction := false;
               min := Some (ofZ 10); max := Some (ofZ 0) |} (Some (ofZ 5))
  <> validator {| positiveOnly := false; withoutFraction := false;
                  min := Some (ofZ 0); max := Some (ofZ 10) |} (Some (ofZ 5)).
Proof.
  vm_compute. discriminate.
Qed.

(** C5 (amended): when min and max are both supplied, both truthy (neither
    zero nor NaN) and min > max, getInternalState exchanges them: the state
    is the one of the pair given in order; its minimum is the smaller bound
    when that is not below MIN_SAFE_INTEGER, and undefined otherwise; its
    maximum is the larger bound when that is not above MAX_SAFE_INTEGER,
    and undefined otherwise; and a validator or a clamp configured with the
    bounds of the state does not depend on the order in which the bounds
    were given. *)
Theorem getInternalState_orders_bounds (props : VariablesProps)
    (a b : number) :
  truthy a = true -> truthy b = true -> gtb a b = true ->
  let given := getInternalState (withBounds props (Some a) (Some b)) in
  let ordered := getInternalState (withBounds props (Some b) (Some a)) in
  given = ordered
  /\ state_min given = (if geb b MIN_SAFE_INTEGER then Some b else None)
  /\ state_max given = (if leb a MAX_SAFE_INTEGER then Some a else None)
  /\ (forall po wf v,
        validator {| positiveOnly := po; withoutFraction := wf;
                     min := state_min given; max := state_max given |} v
        = validator {| positiveOnly := po; withoutFraction := wf;
                       min := state_min ordered;
                       max := state_max ordered |} v)
  /\ (forall value step dir,
        clampToNearestStepValue value step
          (state_min given) (state_max given) dir
        = clampToNearestStepValue value step
            (state_min ordered) (state_max ordered) dir).
Proof.
  intros Ha Hb Hgt given ordered.
  assert (E : given = ordered).
  { unfold given, ordered, getInternalState, withBounds.
    cbn [props_min props_max props_step props_shiftMultiplier props_value
         props_defaultValue props_allowDecimal opt_truthy opt_number
         opt_coalesce].
    rewrite Ha, Hb, Hgt, (gtb_asym a b Hgt). reflexivity. }
  split; [exact E|]. rewrite <- E.
  unfold given, getInternalState, withBounds.
  cbn [props_min props_max opt_truthy opt_number opt_coalesce].
  rewrite Ha, Hb, Hgt. cbn [andb state_min state_max opt_truthy opt_number
                            opt_coalesce].
  rewrite Ha, Hb. cbn [andb]. repeat split.
Qed.

Lemma getInternalState_orders_bounds_witness :
  let props := {| props_min := None; props_max := None;
                  props_step := ofZ 1; props_shiftMultiplier := ofZ 10;
                  props_value := Null; props_defaultValue := Undefined;
                  props_allowDecimal := false |} in
  state_min (getInternalState (withBounds props (Some (ofZ 10)) (Some (ofZ 2))))
  = Some (ofZ 2)
  /\ state_max
       (getInternalState (withBounds props (Some (ofZ 10)) (Some (ofZ 2))))
     = Some (ofZ 10).
Proof.
  intros props.
  destruct (getInternalState_orders_bounds props (ofZ 10) (ofZ 2))
    as (_ & Hmin & Hmax & _); try (vm_compute; reflexivity).
  split; [exact Hmin|exact Hmax].
Defined.

(** A bound beyond the safe-integer limit on its side is dropped after the
    exchange: under {min: 5, max: -2^60} the state has the maximum 5 and no
    minimum. *)
Lemma getInternalState_unsafe_bound_example :
  let props := {| props_min := Some (ofZ 5);
                  props_max := Some (ofZ (- 2 ^ 60));
                  props_step := ofZ 1; props_shiftMultiplier := ofZ 10;
                  props_value := Null; props_defaultValue := Undefined;
                  props_allowDecimal := false |} in
  state_min (getInternalState props) = None
  /\ state_max (getInternalState props) = Some (ofZ 5).
Proof.
  vm_compute. split; reflexivity.
Qed.

(** A bound equal to zero is not taken as supplied: the pair is not
    exchanged and the zero bound is dropped. *)
Lemma getInternalState_zero_bound_example :
  let props := {| props_min := Some (ofZ 5); props_max := Some (ofZ 0);
                  props_step := ofZ 1; props_shiftMultiplier := ofZ 10;
                  props_value := Null; props_defaultValue := Undefined;
                  props_allowDecimal := false |} in
  state_min (getInternalState props) = Some (ofZ 5)
  /\ state_max (getInternalState props) = None.
Proof.
  vm_compute. split; reflexivity.
Qed.

(** * Further properties of the code *)

(** ** The clamp on integers, with the minimum supplied *)

Section ClampLattice.

Variables (st lo hi : Z).
Hypothesis Hst : (0 < st)%Z.

(** With the minimum supplied the result is a point of the lattice anchored
    at the minimum, within the range. *)
Lemma clampZ_lattice_point (v : Z) (dir : option direction) :
  (lo <= hi)%Z ->
  exists k, (0 <= k)%Z
            /\ clampZ v st (Some lo) (Some hi) dir = (lo + k * st)%Z
            /\ (lo <= lo + k * st <= hi)%Z.
Proof.
  intros H. unfold clampZ. cbn [effectiveMax effectiveMin stepBase].
  pose proof (rangeClampZ_bounds v lo hi H) as Hc.
  set (c := rangeClampZ v lo hi) in *.
  destruct (Z.eqb_spec st 0) as [E|_]; [lia|].
  pose proof (Z.mul_div_le (c - lo) st Hst) as Hlo.
  pose proof (Z.mul_succ_div_gt (c - lo) st Hst) as Hhi.
  assert (Hk : (0 <= (c - lo) / st)%Z) by (apply Z.div_pos; lia).
  set (k := ((c - lo) / st)%Z) in *.
  destruct (Z.eqb_spec (c - lo - st * k) 0) as [E|E]; cbn [negb].
  - exists k. split; [assumption|]. split; lia.
  - assert (Hge : (lo + k * st >=? lo)%Z = true).
    { rewrite Z.geb_leb. apply Z.leb_le. nia. }
    rewrite Hge, andb_true_r.
    destruct (_ || _) eqn:E1.
    + exists k. split; [assumption|]. split; [reflexivity|]. nia.
    + apply orb_false_elim in E1 as [E1 _].
      destruct (Z.gtb_spec (lo + (k + 1) * st) hi); [discriminate|].
      destruct (Z.leb_spec (lo + (k + 1) * st) hi); [|lia].
      exists (k + 1)%Z. split; [lia|]. split; [reflexivity|]. nia.
Qed.

(** With no direction the result is a lattice point of the range nearest to
    the value. *)
Lemma clampZ_nearest (v j : Z) :
  (lo <= v <= hi)%Z -> (lo <= lo + j * st <= hi)%Z ->
  (Z.abs (clampZ v st (Some lo) (Some hi) None - v)
   <= Z.abs (lo + j * st - v))%Z.
Proof.
  intros Hv Hj. unfold clampZ. cbn [effectiveMax effectiveMin stepBase].
  rewrite rangeClampZ_id by assumption.
  destruct (Z.eqb_spec st 0) as [E|_]; [lia|].
  pose proof (Z.mul_div_le (v - lo) st Hst) as Hlo.
  pose proof (Z.mul_succ_div_gt (v - lo) st Hst) as Hhi.
  set (k := ((v - lo) / st)%Z) in *.
  assert (Hcell : (j <= k \/ k + 1 <= j)%Z) by lia.
  assert (Hj' : (j <= k -> j * st <= k * st)%Z) by (intros; nia).
  assert (Hj'' : (k + 1 <= j -> (k + 1) * st <= j * st)%Z) by (intros; nia).
  destruct (Z.eqb_spec (v - lo - st * k) 0) as [E|E]; cbn [negb]; [lia|].
  destruct (Z.gtb_spec (lo + (k + 1) * st) hi) as [G|G];
    destruct (Z.gtb_spec (lo + (k + 1) * st - v) (v - (lo + k * st)))
      as [P|P];
    destruct (Z.geb_spec (lo + k * st) lo) as [S|S];
    destruct (Z.leb_spec (lo + (k + 1) * st) hi) as [L|L];
    cbn [orb andb]; try lia; nia.
Qed.

(** The result does not decrease when the value increases. *)
Lemma clampZ_monotone (v w : Z) (dir : option direction) :
  (lo <= hi)%Z -> (v <= w)%Z ->
  (clampZ v st (Some lo) (Some hi) dir
   <= clampZ w st (Some lo) (Some hi) dir)%Z.
Proof.
  intros H Hvw. unfold clampZ. cbn [effectiveMax effectiveMin stepBase].
  pose proof (rangeClampZ_bounds v lo hi H) as Hc.
  pose proof (rangeClampZ_bounds w lo hi H) as Hd.
  assert (Hcd : (rangeClampZ v lo hi <= rangeClampZ w lo hi)%Z).
  { unfold rangeClampZ.
    destruct (Z.gtb_spec v hi), (Z.gtb_spec w hi), (Z.ltb_spec v lo),
      (Z.ltb_spec w lo); lia. }
  set (c := rangeClampZ v lo hi) in *. set (d := rangeClampZ w lo hi) in *.
  destruct (Z.eqb_spec st 0) as [E|_]; [lia|].
  pose proof (Z.mul_div_le (c - lo) st Hst) as Hc1.
  pose proof (Z.mul_succ_div_gt (c - lo) st Hst) as Hc2.
  pose proof (Z.mul_div_le (d - lo) st Hst) as Hd1.
  pose proof (Z.mul_succ_div_gt (d - lo) st Hst) as Hd2.
  assert (Hk : ((c - lo) / st <= (d - lo) / st)%Z)
    by (apply Z.div_le_mono; lia).
  assert (Hc0 : (0 <= (c - lo) / st)%Z) by (apply Z.div_pos; lia).
  set (k := ((c - lo) / st)%Z) in *. set (l := ((d - lo) / st)%Z) in *.
  assert (Hcell : (k = l \/ (k + 1) * st <= l * st)%Z) by nia.
  assert (Hkl : (k * st <= l * st)%Z) by nia.
  destruct (Z.eqb_spec (c - lo - st * k) 0) as [E1|E1];
    destruct (Z.eqb_spec (d - lo - st * l) 0) as [E2|E2]; cbn [negb];
    destruct dir as [[|]|]; cbn [Direction_eqb];
    repeat match goal with
      | |- context [(?a >? ?b)%Z] => destruct (Z.gtb_spec a b)
      | |- context [(?a >=? ?b)%Z] => destruct (Z.geb_spec a b)
      | |- context [(?a <=? ?b)%Z] => destruct (Z.leb_spec a b)
      end;
    cbn [orb andb]; try lia;
    destruct Hcell as [Hcell|Hcell]; try (rewrite <- Hcell in *); nia.
Qed.

End ClampLattice.

Section ClampOnLattice.

(** X13: The result of a clamp with a supplied minimum is always a step value:
    for integers with step > 0, min <= max and an exact range it is
    min + k * step for some k >= 0, and it lies between min and max. *)
Theorem clamp_result_on_lattice (v step min max : Z)
    (dir : option direction) :
  (0 < step)%Z -> (min <= max)%Z -> exactRange step min max ->
  exists k, (0 <= k)%Z
            /\ clamp v step min max dir = ofZ (min + k * step)
            /\ (min <= min + k * step <= max)%Z.
Proof.
  intros Hst H Hx.
  destruct (clampZ_lattice_point step min max Hst v dir H)
    as (k & Hk & E & Hr).
  exists k. rewrite clamp_as_clampZ, E by assumption. auto.
Qed.

Lemma clamp_result_on_lattice_witness :
  exists k, (0 <= k)%Z
            /\ clamp 137 10 3 100 (Some down) = ofZ (3 + k * 10)
            /\ (3 <= 3 + k * 10 <= 100)%Z.
Proof.
  apply (clamp_result_on_lattice 137 10 3 100 (Some down));
    unfold exactRange; lia.
Defined.

(** X14: A step value within the range is returned unchanged, whatever the
    direction, when the step is positive and the range is exact. *)
Theorem clamp_fixes_lattice_points (step min max k : Z)
    (dir : option direction) :
  (0 < step)%Z -> (min <= min + k * step <= max)%Z ->
  exactRange step min max ->
  clamp (min + k * step) step min max dir = ofZ (min + k * step).
Proof.
  intros Hst H Hx. rewrite clamp_as_clampZ by (try assumption; lia). f_equal.
  apply (clampZ_on_lattice step (Some min) (Some max) dir k); [lia|exact H].
Qed.

Lemma clamp_fixes_lattice_points_witness :
  clamp (3 + 4 * 10) 10 3 100 (Some up) = ofZ (3 + 4 * 10).
Proof.
  apply (clamp_fixes_lattice_points 10 3 100 4 (Some up));
    unfold exactRange; lia.
Defined.

(** X15: With no direction, a positive step and an exact range, the result is a
    nearest step value: no step value of the range is closer to a value in
    range than the result is. *)
Theorem clamp_nearest (v step min max j : Z) :
  (0 < step)%Z -> (min <= v <= max)%Z -> (min <= min + j * step <= max)%Z ->
  exactRange step min max ->
  exists r, clamp v step min max None = ofZ r
            /\ (Z.abs (r - v) <= Z.abs (min + j * step - v))%Z.
Proof.
  intros Hst Hv Hj Hx. eexists.
  split; [apply clamp_as_clampZ; (assumption || lia)|].
  now apply clampZ_nearest.
Qed.

Lemma clamp_nearest_witness :
  exists r, clamp 17 10 0 100 None = ofZ r
            /\ (Z.abs (r - 17) <= Z.abs (0 + 1 * 10 - 17))%Z.
Proof.
  apply (clamp_nearest 17 10 0 100 1); unfold exactRange; lia.
Defined.

(** X16: The clamp is monotone in the value, for every direction, when the step
    is positive, the bounds are ordered and the range is exact. *)
Theorem clamp_monotone (v w step min max : Z) (dir : option direction) :
  (0 < step)%Z -> (min <= max)%Z -> exactRange step min max -> (v <= w)%Z ->
  leb (clamp v step min max dir) (clamp w step min max dir) = true.
Proof.
  intros Hst H Hx Hvw. rewrite !clamp_as_clampZ, leb_ofZ by assumption.
  apply Z.leb_le. now apply clampZ_monotone.
Qed.

Lemma clamp_monotone_witness :
  leb (clamp 14 10 0 100 None) (clamp 15 10 0 100 None) = true.
Proof.
  apply (clamp_monotone 14 15 10 0 100 None); unfold exactRange; lia.
Defined.

End ClampOnLattice.

(** ** Order facts on numbers *)

Lemma leb_not_NaN (a b : number) :
  leb a b = true -> isNaN a = false /\ isNaN b = false.
Proof.
  destruct a, b; cbn; try discriminate; auto.
Qed.

Lemma leb_ltb_false (a b : number) : leb a b = true -> ltb b a = false.
Proof.
  unfold leb, ltb.
  destruct a as [|[|]|x], b as [|[|]|y]; cbn [compare];
    try discriminate; try reflexivity.
  rewrite <- (Qcompare_antisym x y). destruct (x ?= y); cbn; congruence.
Qed.

Lemma leb_gtb_false (a b : number) : leb a b = true -> gtb a b = false.
Proof.
  unfold leb, gtb. destruct (compare a b) as [[| |]|]; congruence.
Qed.

Lemma not_gtb_leb (a b : number) :
  isNaN a = false -> isNaN b = false -> gtb a b = false -> leb a b = true.
Proof.
  unfold leb, gtb.
  destruct a as [|[|]|x], b as [|[|]|y]; cbn [compare isNaN];
    try discriminate; try reflexivity.
  destruct (x ?= y); congruence.
Qed.

Lemma truthy_not_NaN (a : number) : truthy a = true -> isNaN a = false.
Proof.
  destruct a; cbn; congruence.
Qed.

(** ** The range law with omitted bounds *)

(** X12: The range law with omitted bounds, on integers: the bounds in force are
    the supplied ones, or the safe-integer limits for the omitted ones, and
    the lattice starts at the supplied minimum or at zero.  When the bounds
    in force are ordered, the step is not negative and the steps at the
    range-clamped value are exact, the result lies between the bounds in
    force. *)
Theorem clamp_within_effective_bounds (v step : Z) (min max : option Z)
    (dir : option direction) :
  let lo := effectiveMin min in
  let hi := effectiveMax max in
  (0 <= step)%Z -> (lo <= hi)%Z ->
  exactSteps (rangeClampZ v lo hi) (stepBase min) step ->
  let r := clampToNearestStepValue (ofZ v) (ofZ step)
             (option_map ofZ min) (option_map ofZ max) dir in
  leb (ofZ lo) r = true /\ leb r (ofZ hi) = true.
Proof.
  intros lo hi Hst Hle Hx.
  destruct (clamp_range_integer v step min max dir Hst Hle Hx)
    as (r & E & Hr).
  cbv zeta. rewrite E, !leb_ofZ. fold lo hi in Hr.
  split; apply Z.leb_le; lia.
Qed.

Lemma clamp_within_effective_bounds_witness :
  let r := clampToNearestStepValue (ofZ (-7)) (ofZ 3) None
             (Some (ofZ 100)) None in
  leb MIN_SAFE_INTEGER r = true /\ leb r (ofZ 100) = true.
Proof.
  apply (clamp_within_effective_bounds (-7) 3 None (Some 100%Z) None);
    vm_compute; repeat split; congruence.
Defined.

(** X17: A clamped value passes the validator: for integers with a step that is
    not negative, ordered bounds and an exact range, the validator with the
    same bounds accepts the result of the clamp, with fractions allowed or
    not, and under positiveOnly when the minimum is not negative. *)
Theorem clamped_value_is_valid (v step min max : Z)
    (dir : option direction) (positive noFraction : bool) :
  (0 <= step)%Z -> (min <= max)%Z -> exactRange step min max ->
  (positive = true -> (0 <= min)%Z) ->
  validator {| positiveOnly := positive; withoutFraction := noFraction;
               NumberInput.min := Some (ofZ min);
               NumberInput.max := Some (ofZ max) |}
    (Some (clamp v step min max dir))
  = None.
Proof.
  intros Hst Hle Hx Hpos.
  destruct (clamp_range_integer v step (Some min) (Some max) dir Hst Hle)
    as (r & E & Hr).
  { now apply exactRange_rangeClampZ. }
  cbn [option_map effectiveMin effectiveMax] in E, Hr. rewrite E.
  unfold validator.
  cbn [positiveOnly withoutFraction NumberInput.min NumberInput.max
       opt_coalesce isNaN ofZ].
  fold (ofZ r). fold (ofZ min). fold (ofZ max).
  rewrite isInteger_ofZ, !ltb_ofZ, gtb_ofZ.
  cbn [negb]. rewrite andb_false_r.
  destruct (Z.ltb_spec r min); [lia|].
  destruct (Z.gtb_spec r max); [lia|].
  destruct positive; cbn [andb]; [|reflexivity].
  specialize (Hpos eq_refl).
  destruct (Z.ltb_spec r 0); [lia|reflexivity].
Qed.

Lemma clamped_value_is_valid_witness :
  validator {| positiveOnly := true; withoutFraction := true;
               NumberInput.min := Some (ofZ 2);
               NumberInput.max := Some (ofZ 50) |}
    (Some (clamp 77 5 2 50 None))
  = None.
Proof.
  apply (clamped_value_is_valid 77 5 2 50 None true true);
    vm_compute; repeat split; congruence.
Defined.

(** ** getInternalState *)

Section InternalState.

Lemma floor_floor (x : number) : floor (floor x) = floor x.
Proof.
  destruct x as [|s|q]; cbn [floor]; try reflexivity.
  now rewrite Qfloor_Z.
Qed.

Lemma roundIfNecessary_idempotent (x : number) (allowDecimal : bool) :
  roundIfNecessary (roundIfNecessary x allowDecimal) allowDecimal
  = roundIfNecessary x allowDecimal.
Proof.
  unfold roundIfNecessary. destruct allowDecimal; [reflexivity|].
  apply floor_floor.
Qed.

Lemma roundNullable_idempotent (v : nullable) (allowDecimal : bool) :
  roundNullable (roundNullable v allowDecimal) allowDecimal
  = roundNullable v allowDecimal.
Proof.
  destruct v as [| |n]; cbn [roundNullable]; try reflexivity.
  destruct (truthy n) eqn:E; cbn [roundNullable]; [|now rewrite E].
  rewrite roundIfNecessary_idempotent.
  now destruct (truthy (roundIfNecessary n allowDecimal)).
Qed.

Lemma truthy_or_else (x d : number) :
  truthy d = true -> truthy (or_else x d) = true.
Proof.
  intros H. unfold or_else. now destruct (truthy x) eqn:E.
Qed.

Lemma or_else_round_idempotent (x d : number) (allowDecimal : bool) :
  roundIfNecessary d allowDecimal = d -> truthy d = true ->
  let s := or_else (roundIfNecessary x allowDecimal) d in
  or_else (roundIfNecessary s allowDecimal) d = s.
Proof.
  intros Hd Ht s. unfold s, or_else.
  destruct (truthy (roundIfNecessary x allowDecimal)) eqn:E.
  - now rewrite roundIfNecessary_idempotent, E.
  - now rewrite Hd, Ht.
Qed.

(** The absolute value is not negative and is its own absolute value. *)
Lemma abs_not_negative (x : number) : ltb (abs x) (ofZ 0) = false.
Proof.
  destruct x as [|s|q]; try reflexivity.
  cbn [abs fin ofZ]. destruct (ltb _ _) eqn:E; [|reflexivity].
  apply ltb_Fin in E. rewrite Qred_correct in E.
  pose proof (Qabs_nonneg q). change (inject_Z 0) with 0 in E. lra.
Qed.

Lemma Qabs_Qred_Qabs (q : Q) : Qabs (Qred (Qabs q)) = Qred (Qabs q).
Proof.
  pose proof (Qabs_nonneg q) as H. rewrite <- (Qred_correct (Qabs q)) in H.
  destruct (Qred (Qabs q)) as [n d]. unfold Qle in H. cbn in H.
  unfold Qabs. f_equal. apply Z.abs_eq. lia.
Qed.

Lemma abs_abs (x : number) : abs (abs x) = abs x.
Proof.
  destruct x as [|s|q]; try reflexivity.
  cbn [abs fin]. unfold fin.
  now rewrite Qabs_Qred_Qabs, Qred_involutive.
Qed.

Lemma floor_not_negative (x : number) :
  ltb x (ofZ 0) = false -> ltb (floor x) (ofZ 0) = false.
Proof.
  destruct x as [|s|q]; cbn [floor]; try (intros; assumption).
  intros H. destruct (ltb (Fin (inject_Z (Qfloor q))) (ofZ 0)) eqn:E;
    [|reflexivity].
  apply ltb_Fin in E. rewrite <- Zlt_Qlt in E.
  assert (Hq : 0 <= q).
  { apply Qnot_lt_le. intros Hn. change 0 with (inject_Z 0) in Hn.
    apply ltb_Fin in Hn. unfold ofZ in H. congruence. }
  apply Qfloor_resp_le in Hq. change (Qfloor 0) with 0%Z in Hq. lia.
Qed.

Lemma abs_floor_abs (x : number) : abs (floor (abs x)) = floor (abs x).
Proof.
  destruct x as [|s|q]; try reflexivity.
  cbn [abs fin floor]. unfold fin.
  set (k := Qfloor (Qred (Qabs q))).
  assert (Hk : (0 <= k)%Z).
  { pose proof (Qabs_nonneg q) as H. rewrite <- (Qred_correct (Qabs q)) in H.
    apply Qfloor_resp_le in H. exact H. }
  replace (Qabs (inject_Z k)) with (inject_Z k).
  - now rewrite Qred_inject_Z.
  - unfold Qabs, inject_Z. f_equal. symmetry. apply Z.abs_eq. exact Hk.
Qed.

Lemma abs_round_abs (x : number) (allowDecimal : bool) :
  abs (roundIfNecessary (abs x) allowDecimal)
  = roundIfNecessary (abs x) allowDecimal.
Proof.
  unfold roundIfNecessary. destruct allowDecimal;
    [apply abs_abs|apply abs_floor_abs].
Qed.

Lemma InternalState_eta (s : InternalState) :
  s = {| state_min := state_min s; state_max := state_max s;
         state_step := state_step s;
         state_shiftMultiplier := state_shiftMultiplier s;
         state_value := state_value s;
         state_defaultValue := state_defaultValue s |}.
Proof. now destruct s. Qed.

Lemma state_min_eq (p : VariablesProps) :
  state_min (getInternalState p)
  = let rangedMin :=
      fst (if opt_truthy (props_min p) && opt_truthy (props_max p)
              && gtb (opt_number (props_min p)) (opt_number (props_max p))
           then (props_max p, props_min p)
           else (props_min p, props_max p)) in
    if opt_truthy rangedMin && geb (opt_number rangedMin) MIN_SAFE_INTEGER
    then rangedMin else None.
Proof. unfold getInternalState. now destruct (_ && _ && _). Qed.

Lemma state_max_eq (p : VariablesProps) :
  state_max (getInternalState p)
  = let rangedMax :=
      snd (if opt_truthy (props_min p) && opt_truthy (props_max p)
              && gtb (opt_number (props_min p)) (opt_number (props_max p))
           then (props_max p, props_min p)
           else (props_min p, props_max p)) in
    if opt_truthy rangedMax && leb (opt_number rangedMax) MAX_SAFE_INTEGER
    then rangedMax else None.
Proof. unfold getInternalState. now destruct (_ && _ && _). Qed.

Lemma state_step_eq (p : VariablesProps) :
  state_step (getInternalState p)
  = or_else (roundIfNecessary (abs (props_step p)) (props_allowDecimal p))
      (ofZ 1).
Proof. unfold getInternalState. now destruct (_ && _ && _). Qed.

Lemma state_shiftMultiplier_eq (p : VariablesProps) :
  state_shiftMultiplier (getInternalState p)
  = or_else (roundIfNecessary (props_shiftMultiplier p)
               (props_allowDecimal p)) (ofZ 10).
Proof. unfold getInternalState. now destruct (_ && _ && _). Qed.

Lemma state_value_eq (p : VariablesProps) :
  state_value (getInternalState p)
  = roundNullable (props_value p) (props_allowDecimal p).
Proof. unfold getInternalState. now destruct (_ && _ && _). Qed.

Lemma state_defaultValue_eq (p : VariablesProps) :
  state_defaultValue (getInternalState p)
  = roundNullable (props_defaultValue p) (props_allowDecimal p).
Proof. unfold getInternalState. now destruct (_ && _ && _). Qed.

Variable props : VariablesProps.

Let st : InternalState := getInternalState props.

(** The bounds of the state: a bound that is kept is truthy and within the
    safe-integer limit on its side, and two kept bounds are in order. *)
Lemma state_bounds :
  (forall a, state_min st = Some a ->
             truthy a = true /\ geb a MIN_SAFE_INTEGER = true)
  /\ (forall b, state_max st = Some b ->
                truthy b = true /\ leb b MAX_SAFE_INTEGER = true)
  /\ (forall a b, state_min st = Some a -> state_max st = Some b ->
                  gtb a b = false).
Proof.
  unfold st, getInternalState.
  destruct (props_min props) as [m|], (props_max props) as [M|];
    cbn [opt_truthy opt_number opt_coalesce andb];
    rewrite ?andb_false_r;
    try (destruct (truthy m) eqn:Tm); try (destruct (truthy M) eqn:TM);
    cbn [andb]; try (destruct (gtb m M) eqn:G);
    cbn [state_min state_max opt_truthy opt_number opt_coalesce andb];
    rewrite ?Tm, ?TM; cbn [andb];
    try (destruct (geb m MIN_SAFE_INTEGER) eqn:G1);
    try (destruct (geb M MIN_SAFE_INTEGER) eqn:G2);
    try (destruct (leb m MAX_SAFE_INTEGER) eqn:L1);
    try (destruct (leb M MAX_SAFE_INTEGER) eqn:L2);
    repeat split; intros; try discriminate;
    repeat match goal with H : Some _ = Some _ |- _ =>
      injection H as <- end;
    auto using gtb_asym.
Qed.

Lemma state_step_not_negative : ltb (state_step st) (ofZ 0) = false.
Proof.
  unfold st. rewrite state_step_eq. unfold or_else.
  destruct (truthy _); [|reflexivity].
  unfold roundIfNecessary. destruct (props_allowDecimal props).
  - apply abs_not_negative.
  - apply floor_not_negative, abs_not_negative.
Qed.

End InternalState.

Lemma internal_bounds_ordered_aux (props : VariablesProps) (a b : number) :
  state_min (getInternalState props) = Some a ->
  state_max (getInternalState props) = Some b ->
  leb a b = true /\ exists x y, a = Fin x /\ b = Fin y.
Proof.
  intros Ha Hb.
  destruct (state_bounds props) as (Hmin & Hmax & Hord).
  destruct (Hmin a Ha) as [Ta Ga]. destruct (Hmax b Hb) as [Tb Lb].
  specialize (Hord a b Ha Hb).
  assert (Hle : leb a b = true)
    by (apply not_gtb_leb; auto using truthy_not_NaN).
  split; [assumption|].
  destruct a as [|[|]|x], b as [|[|]|y]; try discriminate; eauto.
Qed.

(** X8: When both bounds are kept by getInternalState they are finite safe
    numbers in order: min <= max. *)
Theorem internal_bounds_ordered (props : VariablesProps) (a b : number) :
  state_min (getInternalState props) = Some a ->
  state_max (getInternalState props) = Some b ->
  leb a b = true
  /\ geb a MIN_SAFE_INTEGER = true /\ leb b MAX_SAFE_INTEGER = true
  /\ exists x y, a = Fin x /\ b = Fin y.
Proof.
  intros Ha Hb.
  destruct (state_bounds props) as (Hmin & Hmax & _).
  destruct (Hmin a Ha) as [_ Ga]. destruct (Hmax b Hb) as [_ Lb].
  destruct (internal_bounds_ordered_aux props a b Ha Hb) as [Hle Hfin].
  auto.
Qed.

Lemma internal_bounds_ordered_witness :
  let props := {| props_min := Some (ofZ 10); props_max := Some (ofZ 2);
                  props_step := ofZ 1; props_shiftMultiplier := ofZ 10;
                  props_value := Null; props_defaultValue := Undefined;
                  props_allowDecimal := false |} in
  leb (ofZ 2) (ofZ 10) = true
  /\ geb (ofZ 2) MIN_SAFE_INTEGER = true
  /\ leb (ofZ 10) MAX_SAFE_INTEGER = true
  /\ exists x y, ofZ 2 = Fin x /\ ofZ 10 = Fin y.
Proof.
  intros props.
  apply (internal_bounds_ordered props (ofZ 2) (ofZ 10));
    vm_compute; reflexivity.
Defined.

(** X9: The step of the state is never zero, NaN or negative, and the shift
    multiplier is never zero or NaN; without decimals the step is an integer
    or Infinity. *)
Theorem internal_step_is_usable (props : VariablesProps) :
  let st := getInternalState props in
  truthy (state_step st) = true
  /\ ltb (state_step st) (ofZ 0) = false
  /\ truthy (state_shiftMultiplier st) = true
  /\ (props_allowDecimal props = false ->
      isInteger (state_step st) = true \/ state_step st = Infinity false).
Proof.
  intros st. split; [|split; [|split]].
  - unfold st. rewrite state_step_eq. now apply truthy_or_else.
  - apply state_step_not_negative.
  - unfold st. rewrite state_shiftMultiplier_eq. now apply truthy_or_else.
  - intros Had. unfold st. rewrite state_step_eq, Had.
    unfold or_else, roundIfNecessary.
    destruct (truthy (floor (abs (props_step props)))) eqn:E;
      [|left; apply isInteger_ofZ].
    destruct (props_step props) as [|s|q]; cbn [abs floor fin] in *;
      try discriminate; [now right|].
    left. apply (isInteger_ofZ (Qfloor (Qred (Qabs q)))).
Qed.

(** X10: Normalising twice changes nothing: getInternalState applied to its own
    result gives that result. *)
Theorem getInternalState_idempotent (props : VariablesProps) :
  getInternalState
    (stateAsProps (getInternalState props) (props_allowDecimal props))
  = getInternalState props.
Proof.
  destruct (state_bounds props) as (Hmin & Hmax & Hord).
  set (st := getInternalState props) in *.
  set (p' := stateAsProps st (props_allowDecimal props)).
  assert (Eswap : opt_truthy (props_min p') && opt_truthy (props_max p')
                  && gtb (opt_number (props_min p'))
                       (opt_number (props_max p')) = false).
  { unfold p', stateAsProps. cbn [props_min props_max].
    destruct (state_min st) as [a|] eqn:Ea; [|reflexivity].
    destruct (state_max st) as [b|] eqn:Eb;
      [|cbn [opt_truthy]; now rewrite andb_false_r].
    cbn [opt_number opt_coalesce]. rewrite (Hord a b eq_refl eq_refl).
    apply andb_false_r. }
  etransitivity; [|symmetry; apply (InternalState_eta st)].
  rewrite (InternalState_eta (getInternalState p')).
  f_equal.
  - rewrite state_min_eq, Eswap. cbn [fst]. unfold p', stateAsProps.
    cbn [props_min]. cbv zeta.
    destruct (state_min st) as [a|] eqn:Ea; [|reflexivity].
    destruct (Hmin a eq_refl) as [T G].
    cbn [opt_truthy opt_number opt_coalesce]. now rewrite T, G.
  - rewrite state_max_eq, Eswap. cbn [snd]. unfold p', stateAsProps.
    cbn [props_max]. cbv zeta.
    destruct (state_max st) as [b|] eqn:Eb; [|reflexivity].
    destruct (Hmax b eq_refl) as [T L].
    cbn [opt_truthy opt_number opt_coalesce]. now rewrite T, L.
  - rewrite state_step_eq. unfold p', stateAsProps.
    cbn [props_step props_allowDecimal]. unfold st.
    rewrite state_step_eq. unfold or_else.
    destruct (truthy (roundIfNecessary (abs (props_step props))
                        (props_allowDecimal props))) eqn:E.
    + rewrite abs_round_abs, roundIfNecessary_idempotent. now rewrite E.
    + now destruct (props_allowDecimal props).
  - rewrite state_shiftMultiplier_eq. unfold p', stateAsProps.
    cbn [props_shiftMultiplier props_allowDecimal]. unfold st.
    rewrite state_shiftMultiplier_eq.
    apply or_else_round_idempotent; [|reflexivity].
    now destruct (props_allowDecimal props).
  - rewrite state_value_eq. unfold p', stateAsProps.
    cbn [props_value props_allowDecimal]. unfold st.
    rewrite state_value_eq. apply roundNullable_idempotent.
  - rewrite state_defaultValue_eq. unfold p', stateAsProps.
    cbn [props_defaultValue props_allowDecimal]. unfold st.
    rewrite state_defaultValue_eq. apply roundNullable_idempotent.
Qed.

(** X11: The state feeds the clamp safely: with the step of the state and both
    bounds kept by the state, all integers, and an exact range, the clamp
    of an integer lies between the bounds; the state supplies the order of
    the bounds and a step that is not negative. *)
Theorem clamp_with_internal_state (props : VariablesProps)
    (v step lo hi : Z) (dir : option direction) :
  let st := getInternalState props in
  state_min st = Some (ofZ lo) -> state_max st = Some (ofZ hi) ->
  state_step st = ofZ step -> exactRange step lo hi ->
  let r := clampToNearestStepValue (ofZ v) (state_step st)
             (state_min st) (state_max st) dir in
  leb (ofZ lo) r = true /\ leb r (ofZ hi) = true.
Proof.
  intros st Hlo Hhi Hstep Hx.
  destruct (internal_bounds_ordered_aux props _ _ Hlo Hhi) as (Hle & _).
  pose proof (state_step_not_negative props) as Hpos.
  fold st in Hlo, Hhi, Hpos. rewrite Hstep in Hpos.
  rewrite leb_ofZ in Hle. rewrite ltb_ofZ in Hpos.
  apply Z.leb_le in Hle. apply Z.ltb_ge in Hpos.
  cbv zeta. rewrite Hlo, Hhi, Hstep.
  destruct (clamp_range_integer v step (Some lo) (Some hi) dir Hpos Hle)
    as (r & E & Hr).
  { now apply exactRange_rangeClampZ. }
  cbn [option_map effectiveMin effectiveMax] in E, Hr.
  rewrite E, !leb_ofZ. split; apply Z.leb_le; lia.
Qed.

Lemma clamp_with_internal_state_witness :
  let props := {| props_min := Some (ofZ 40); props_max := Some (ofZ 2);
                  props_step := ofZ (-5); props_shiftMultiplier := ofZ 10;
                  props_value := Null; props_defaultValue := Undefined;
                  props_allowDecimal := false |} in
  let st := getInternalState props in
  let r := clampToNearestStepValue (ofZ 77) (state_step st)
             (state_min st) (state_max st) None in
  leb (ofZ 2) r = true /\ leb r (ofZ 40) = true.
Proof.
  intros props.
  apply (clamp_with_internal_state props 77 5 2 40 None);
    vm_compute; repeat split; reflexivity.
Defined.


(** ** prepareStringValue *)

Lemma filter_all (A : Type) (p : A -> bool) (l : list A) :
  forallb p l = true -> filter p l = l.
Proof.
  induction l as [|x l IH]; cbn; [reflexivity|].
  intros H. apply andb_prop in H as [Hx Hl]. now rewrite Hx, IH.
Qed.

Lemma forallb_filter_same (A : Type) (p : A -> bool) (l : list A) :
  forallb p (filter p l) = true.
Proof.
  induction l as [|x l IH]; cbn; [reflexivity|].
  destruct (p x) eqn:E; cbn; [now rewrite E|exact IH].
Qed.

Lemma replaceFirst_absent (from to : ascii) (s : jsstring) :
  ~ In from s -> replaceFirst from to s = s.
Proof.
  induction s as [|c s IH]; cbn; [reflexivity|].
  intros H. destruct (Ascii.eqb_spec c from) as [E|_].
  - exfalso. apply H. now left.
  - rewrite IH; [reflexivity|]. intros Hin. apply H. now right.
Qed.

Lemma numeric_not_space (c : ascii) :
  isNumericChar c = true -> isWhiteSpace c = false.
Proof.
  destruct c as [[] [] [] [] [] [] [] []]; vm_compute; congruence.
Qed.

Lemma prepareStringValue_all_numeric (value : jsstring) :
  forallb isNumericChar (prepareStringValue value) = true.
Proof.
  unfold prepareStringValue, removeAll.
  set (s := filter _ (replaceFirst _ _ _)).
  rewrite (filter_ext (fun c => negb (negb (isNumericChar c))) isNumericChar)
    by (intros c; apply negb_involutive).
  apply forallb_filter_same.
Qed.

Lemma prepareStringValue_fixes_numeric (s : jsstring) :
  forallb isNumericChar s = true -> prepareStringValue s = s.
Proof.
  intros H. unfold prepareStringValue, removeAll.
  rewrite replaceFirst_absent.
  - rewrite (filter_all _ _ s).
    + apply filter_all. rewrite forallb_forall in *. intros c Hc.
      now rewrite (H c Hc).
    + rewrite forallb_forall in *. intros c Hc.
      now rewrite (numeric_not_space c (H c Hc)).
  - intros Hin. rewrite forallb_forall in H. apply H in Hin. discriminate.
Qed.

(** X1: The sanitizer is idempotent: a sanitized string is left as it is. *)
Theorem prepareStringValue_idempotent (value : jsstring) :
  prepareStringValue (prepareStringValue value) = prepareStringValue value.
Proof.
  apply prepareStringValue_fixes_numeric, prepareStringValue_all_numeric.
Qed.

(** X2: The sanitized string holds only digits, periods and signs (no comma, no
    white space, no letter), and a string of such characters is unchanged by
    the sanitizer. *)
Theorem prepareStringValue_alphabet :
  (forall value c, In c (prepareStringValue value) ->
                   isDigit c = true \/ c = "."%char \/ c = "+"%char
                   \/ c = "-"%char)
  /\ (forall s, forallb isNumericChar s = true -> prepareStringValue s = s).
Proof.
  split; [|exact prepareStringValue_fixes_numeric].
  intros value c Hin.
  pose proof (prepareStringValue_all_numeric value) as H.
  rewrite forallb_forall in H. specialize (H c Hin).
  unfold isNumericChar in H.
  repeat (apply orb_prop in H as [H|H]); auto;
    apply Ascii.eqb_eq in H; auto.
Qed.

Lemma prepareStringValue_alphabet_witness :
  prepareStringValue (str "-12.5+") = str "-12.5+".
Proof.
  apply (proj2 prepareStringValue_alphabet). vm_compute. reflexivity.
Defined.

(** ** The two modes of getPossibleNumberSubstring *)

(** The captured texts are made of characters of the matched string. *)
Lemma Matches_captured_chars (ps : regex) (s : jsstring) (caps : captures) :
  Matches ps s caps ->
  forall t c, In (Some t) caps -> In c t -> In c s.
Proof.
  induction 1 as [|class ps c0 rest caps Hc _ IH|class ps s caps _ IH
                  |class ps c0 rest caps Hc _ IH|class ps s caps _ IH
                  |class ps run rest caps Hr _ IH
                  |class ps run rest caps Hr _ IH];
    intros t c Ht Hin.
  - contradiction.
  - destruct Ht as [[= <-]|Ht].
    + destruct Hin as [<-|[]]. now left.
    + right. eauto.
  - destruct Ht as [[= <-]|Ht]; [contradiction|eauto].
  - destruct Ht as [[= <-]|Ht].
    + destruct Hin as [<-|[]]. now left.
    + right. eauto.
  - destruct Ht as [[=]|Ht]. eauto.
  - apply in_or_app. destruct Ht as [[= <-]|Ht]; [now left|right; eauto].
  - apply in_or_app. right. eauto.
Qed.

Lemma separator_in_sanitized (value : jsstring) (c : ascii) :
  isSeparator c = true -> In c (prepareStringValue value) -> c = "."%char.
Proof.
  intros Hsep Hin.
  pose proof (prepareStringValue_all_numeric value) as H.
  rewrite forallb_forall in H. specialize (H c Hin).
  unfold isSeparator in Hsep. apply orb_prop in Hsep as [E|E];
    apply Ascii.eqb_eq in E; subst; [reflexivity|discriminate].
Qed.

(** The parts of an extracted string, and the result of both modes. *)
Lemma substring_parts (value : jsstring) (allowDecimal : bool) (r : jsstring) :
  getPossibleNumberSubstring value allowDecimal = Some r ->
  exists sign digits sep fraction,
    (sign = [] \/ sign = str "-" \/ sign = str "+")
    /\ forallb isDigit digits = true
    /\ (sep = [] \/ sep = str ".")
    /\ forallb isDigit fraction = true
    /\ getPossibleNumberSubstring value true
       = Some (sign ++ digits ++ sep ++ fraction)%list
    /\ getPossibleNumberSubstring value false = Some (sign ++ digits)%list.
Proof.
  unfold getPossibleNumberSubstring, exec. intros H.
  destruct (matchPieces pastedInputParsingRegex (prepareStringValue value))
    as [caps|] eqn:E; [|discriminate].
  cbn [push option_map] in *.
  destruct (_ && _); [discriminate|]. clear H.
  apply matchPieces_sound in E. pose proof (Matches_captured_chars _ _ _ E) as Hch.
  apply pasted_captures in E
    as (sign & digits & sep & fraction & -> & Hsign & Hdigits & Hsep & Hfrac).
  assert (Hs : sign = [] \/ sign = str "-" \/ sign = str "+").
  { destruct Hsign as [->|(c & -> & Hc)]; [now left|].
    apply isSign_cases in Hc as [->| ->]; auto. }
  assert (Hp : exists sep', (sep' = [] \/ sep' = str ".")
                            /\ join [sep] = sep').
  { destruct Hsep as [->|(c & -> & Hc)]; [exists []; auto|].
    exists [c]. split; [|reflexivity]. right.
    rewrite (separator_in_sanitized value c Hc); [reflexivity|].
    apply (Hch [c] c); cbn; auto. }
  destruct Hp as (sep' & Hsep' & Ej).
  exists sign, digits, sep', fraction.
  repeat (split; [assumption|]).
  cbn [slice skipn firstn Nat.sub]. rewrite !join_filter_Boolean.
  unfold join in *. cbn [flat_map] in *. rewrite app_nil_r in Ej.
  rewrite Ej, !app_nil_r. split; reflexivity.
Qed.

(** X3: Both modes reject the same strings, and where they accept, the result
    with decimals is the result without decimals followed by an optional
    period and digits. *)
Theorem substring_modes_agree (value : jsstring) :
  match getPossibleNumberSubstring value true,
        getPossibleNumberSubstring value false with
  | Some r, Some r' =>
      exists sep fraction,
        r = (r' ++ sep ++ fraction)%list
        /\ (sep = [] \/ sep = str ".")
        /\ forallb isDigit fraction = true
  | None, None => True
  | _, _ => False
  end.
Proof.
  destruct (getPossibleNumberSubstring value true) as [r|] eqn:E1.
  - destruct (substring_parts value true r E1)
      as (sign & digits & sep & fraction & _ & _ & Hsep & Hf & Et & Ef).
    rewrite Ef. rewrite E1 in Et. injection Et as ->.
    exists sep, fraction. rewrite <- app_assoc. auto.
  - destruct (getPossibleNumberSubstring value false) as [r'|] eqn:E2;
      [|exact I].
    destruct (substring_parts value false r' E2)
      as (sign & digits & sep & fraction & _ & _ & _ & _ & Et & _).
    congruence.
Qed.

(** X4: With decimals allowed the extracted string is an optional sign, digits,
    and then an optional period followed by digits; it holds no comma. *)
Theorem decimal_substring_shape (value r : jsstring) :
  getPossibleNumberSubstring value true = Some r ->
  (exists sign digits sep fraction,
     r = (sign ++ digits ++ sep ++ fraction)%list
     /\ (sign = [] \/ sign = str "-" \/ sign = str "+")
     /\ forallb isDigit digits = true
     /\ (sep = [] \/ sep = str ".")
     /\ forallb isDigit fraction = true)
  /\ ~ In ","%char r.
Proof.
  intros H.
  destruct (substring_parts value true r H)
    as (sign & digits & sep & fraction & Hs & Hd & Hsep & Hf & Et & _).
  rewrite H in Et. injection Et as ->.
  split; [exists sign, digits, sep, fraction; auto|].
  rewrite forallb_forall in Hd, Hf.
  intros Hin. repeat (apply in_app_or in Hin as [Hin|Hin]).
  - destruct Hs as [->|[->| ->]]; cbn in Hin;
      intuition (subst; discriminate).
  - apply Hd in Hin. discriminate.
  - destruct Hsep as [->| ->]; cbn in Hin; intuition (subst; discriminate).
  - apply Hf in Hin. discriminate.
Qed.

Lemma decimal_substring_shape_witness :
  (exists sign digits sep fraction,
     str "-123456.78" = (sign ++ digits ++ sep ++ fraction)%list
     /\ (sign = [] \/ sign = str "-" \/ sign = str "+")
     /\ forallb isDigit digits = true
     /\ (sep = [] \/ sep = str ".")
     /\ forallb isDigit fraction = true)
  /\ ~ In ","%char (str "-123456.78").
Proof.
  apply (decimal_substring_shape (str "- $123 456,78k") (str "-123456.78")).
  vm_compute. reflexivity.
Defined.

(** ** The extracted string through the parser *)

Section ParseExtracted.

Lemma dropWhile_none (p : ascii -> bool) (s : jsstring) :
  forallb (fun c => negb (p c)) s = true -> dropWhile p s = s.
Proof.
  destruct s as [|c s]; cbn; [reflexivity|].
  intros H. apply andb_prop in H as [H _].
  now destruct (p c).
Qed.

Lemma trim_no_space (s : jsstring) :
  forallb (fun c => negb (isWhiteSpace c)) s = true -> trim s = s.
Proof.
  intros H. unfold trim. rewrite (dropWhile_none _ s H).
  rewrite dropWhile_none; [apply rev_involutive|].
  rewrite forallb_forall in *. intros c Hc. apply H. now apply in_rev.
Qed.

Lemma numeric_not_radix_letter (x : ascii) :
  isNumericChar x = true ->
  (Ascii.eqb x "x" || Ascii.eqb x "X") = false
  /\ (Ascii.eqb x "o" || Ascii.eqb x "O") = false
  /\ (Ascii.eqb x "b" || Ascii.eqb x "B") = false.
Proof.
  destruct x as [[] [] [] [] [] [] [] []]; vm_compute; intros H;
    repeat split; congruence.
Qed.

Lemma nonDecimalLiteral_numeric (s : jsstring) :
  forallb isNumericChar s = true -> nonDecimalLiteral s = None.
Proof.
  destruct s as [|c0 [|x ds]]; intros H.
  - reflexivity.
  - destruct c0 as [[] [] [] [] [] [] [] []]; reflexivity.
  - cbn [forallb] in H. apply andb_prop in H as [_ H].
    apply andb_prop in H as [Hx _].
    destruct (numeric_not_radix_letter x Hx) as (E1 & E2 & E3).
    destruct c0 as [[] [] [] [] [] [] [] []]; try reflexivity.
    cbn [nonDecimalLiteral]. now rewrite E1, E2, E3.
Qed.

Lemma signOf_no_sign (s : jsstring) :
  (forall c s', s = c :: s' -> isSign c = false) -> signOf s = (false, s).
Proof.
  destruct s as [|c s]; [reflexivity|]. intros H.
  specialize (H c s eq_refl).
  destruct c as [[] [] [] [] [] [] [] []]; try reflexivity;
    vm_compute in H; discriminate.
Qed.

Lemma span_all (p : ascii -> bool) (a b : jsstring) :
  forallb p a = true -> (forall c b', b = c :: b' -> p c = false) ->
  span p (a ++ b) = (a, b).
Proof.
  intros Ha Hb. induction a as [|x a IH]; cbn [app].
  - destruct b as [|c b']; [reflexivity|]. cbn [span].
    now rewrite (Hb c b' eq_refl).
  - cbn [forallb] in Ha. apply andb_prop in Ha as [Hx Ha].
    cbn [span]. now rewrite Hx, (IH Ha).
Qed.

Lemma digitOf_digit (c : ascii) :
  isDigit c = true -> exists d, digitOf 10 c = Some d.
Proof.
  unfold isDigit, digitOf. intros H. rewrite H.
  apply andb_prop in H as [H1 H2].
  apply Nat.leb_le in H1. apply Nat.leb_le in H2.
  destruct (Nat.ltb_spec (charCode c - 48) 10); [eauto|lia].
Qed.

Lemma digitsValue_digits (ds : jsstring) :
  forallb isDigit ds = true ->
  forall acc, exists m, digitsValue 10 acc ds = Some m.
Proof.
  induction ds as [|c ds IH]; intros H acc; cbn [digitsValue]; [eauto|].
  cbn [forallb] in H. apply andb_prop in H as [Hc H].
  destruct (digitOf_digit c Hc) as (d & ->). apply IH, H.
Qed.

(** The decimal literal made of integer digits, an optional period and
    fraction digits has a value exactly when it holds a digit. *)
Lemma decimalLiteral_parts (digits sep fraction : jsstring) :
  forallb isDigit digits = true -> (sep = [] \/ sep = str ".") ->
  forallb isDigit fraction = true ->
  match (digits ++ fraction)%list with
  | [] => decimalLiteral (digits ++ sep ++ fraction) = None
  | _ :: _ => exists q, decimalLiteral (digits ++ sep ++ fraction) = Some q
  end.
Proof.
  intros Hd Hsep Hf.
  assert (Hall : forallb isDigit (digits ++ fraction) = true)
    by (rewrite forallb_app; now rewrite Hd, Hf).
  assert (Hspan : forall ds, forallb isDigit ds = true ->
                             span isDigit ds = (ds, [])).
  { intros ds H. pose proof (span_all isDigit ds [] H) as E.
    rewrite app_nil_r in E. apply E. discriminate. }
  unfold decimalLiteral. destruct Hsep as [->| ->].
  - cbn [app]. rewrite (Hspan _ Hall), app_nil_r. cbn [exponentPart].
    destruct (digits ++ fraction)%list as [|c ds]; [reflexivity|].
    destruct (digitsValue_digits (c :: ds) Hall 0%Z) as (m & ->). eauto.
  - change (str ".") with ["."%char]. cbn [app].
    rewrite (span_all isDigit digits ("."%char :: fraction) Hd)
      by (now intros c b' [= <- _]).
    rewrite (Hspan _ Hf). cbn [exponentPart].
    destruct (digits ++ fraction)%list as [|c ds]; [reflexivity|].
    destruct (digitsValue_digits (c :: ds) Hall 0%Z) as (m & ->). eauto.
Qed.

End ParseExtracted.

Lemma digit_is_numeric (c : ascii) :
  isDigit c = true -> isNumericChar c = true.
Proof.
  unfold isNumericChar. now intros ->.
Qed.

Lemma digit_not_sign (c : ascii) : isDigit c = true -> isSign c = false.
Proof.
  destruct c as [[] [] [] [] [] [] [] []]; vm_compute; congruence.
Qed.

(** The conversion of an optional sign followed by a body of numeric
    characters that does not begin with a sign. *)
Lemma Number_signed (sign body : jsstring) :
  (sign = [] \/ sign = str "-" \/ sign = str "+") ->
  forallb isNumericChar body = true ->
  (forall c s', body = c :: s' -> isSign c = false) ->
  (sign ++ body)%list <> [] ->
  Number (sign ++ body)
  = match decimalLiteral body with
    | Some q =>
        round64
          (if match sign with [] => false | c :: _ => Ascii.eqb c "-" end
           then - q else q)
    | None => NaN
    end.
Proof.
  intros Hs Hbody Hhead Hr.
  set (r := (sign ++ body)%list) in *.
  assert (Hnum : forallb isNumericChar r = true).
  { unfold r. rewrite forallb_app, Hbody.
    now destruct Hs as [->|[->| ->]]. }
  assert (Hsign : signOf r = (match sign with
                              | [] => false
                              | c :: _ => Ascii.eqb c "-"
                              end, body)).
  { unfold r. destruct Hs as [->|[->| ->]]; try reflexivity.
    cbn [app]. now apply signOf_no_sign. }
  assert (Hinf : forall A (x y : A),
             (if list_eq_dec ascii_dec body (str "Infinity") then x else y)
             = y).
  { intros A x y. destruct (list_eq_dec ascii_dec body (str "Infinity"))
      as [E|_]; [|reflexivity].
    rewrite E in Hbody. discriminate. }
  unfold Number. rewrite trim_no_space.
  2:{ rewrite forallb_forall in *. intros c Hc.
      now rewrite (numeric_not_space c (Hnum c Hc)). }
  destruct r as [|c0 r0] eqn:Er; [contradiction|]. rewrite <- Er in *.
  now rewrite (nonDecimalLiteral_numeric r Hnum), Hsign, Hinf.
Qed.

Lemma parts_body (digits sep fraction : jsstring) :
  forallb isDigit digits = true -> (sep = [] \/ sep = str ".") ->
  forallb isDigit fraction = true ->
  let body := (digits ++ sep ++ fraction)%list in
  forallb isNumericChar body = true
  /\ (forall c s', body = c :: s' -> isSign c = false).
Proof.
  intros Hd Hsep Hf body. split.
  - unfold body. rewrite !forallb_app.
    rewrite forallb_forall in Hd, Hf.
    assert (forallb isNumericChar digits = true)
      by (apply forallb_forall; auto using digit_is_numeric).
    assert (forallb isNumericChar fraction = true)
      by (apply forallb_forall; auto using digit_is_numeric).
    destruct Hsep as [->| ->]; cbn [forallb str]; now rewrite H, H0.
  - intros c s' E. unfold body in E. rewrite forallb_forall in Hd, Hf.
    destruct digits as [|d ds].
    + destruct Hsep as [->| ->]; cbn [app str] in E.
      * apply digit_not_sign, Hf. rewrite E. now left.
      * now injection E as <- _.
    + injection E as <- _. apply digit_not_sign, Hd. now left.
Qed.

(** The conversion of sign, digits, optional period and digits: a number
    when there is a digit (an infinity when the digits are beyond the range
    of the numbers), NaN when there is none. *)
Lemma Number_of_parts (sign digits sep fraction : jsstring) :
  (sign = [] \/ sign = str "-" \/ sign = str "+") ->
  forallb isDigit digits = true -> (sep = [] \/ sep = str ".") ->
  forallb isDigit fraction = true ->
  let r := (sign ++ digits ++ sep ++ fraction)%list in
  r <> [] ->
  match (digits ++ fraction)%list with
  | [] => Number r = NaN
  | _ :: _ => isNaN (Number r) = false
  end.
Proof.
  intros Hs Hd Hsep Hf r Hr.
  destruct (parts_body digits sep fraction Hd Hsep Hf) as [Hbody Hhead].
  pose proof (decimalLiteral_parts digits sep fraction Hd Hsep Hf) as Hdec.
  unfold r. rewrite (Number_signed sign _ Hs Hbody Hhead Hr).
  destruct (digits ++ fraction)%list.
  - now rewrite Hdec.
  - destruct Hdec as (q & ->). apply round64_not_NaN.
Qed.

(** A run of digits beyond the range of the numbers is an infinity. *)
Lemma Number_overflow_example :
  Number (str "1" ++ repeat "0"%char 309) = Infinity false.
Proof.
  vm_compute. reflexivity.
Qed.

Lemma strict_eq_refl (x : number) : isNaN x = false -> strict_eq x x = true.
Proof.
  unfold strict_eq. destruct x as [|[|]|q]; cbn [compare isNaN];
    try discriminate; try reflexivity.
  intros _. now rewrite (proj1 (Qeq_alt q q) (Qeq_refl q)).
Qed.

Lemma decimalLiteral_trailing_period (digits : jsstring) :
  forallb isDigit digits = true ->
  decimalLiteral (digits ++ str ".") = decimalLiteral digits.
Proof.
  intros Hd. unfold decimalLiteral. change (str ".") with ["."%char].
  rewrite (span_all isDigit digits ["."%char] Hd)
    by (now intros c b' [= <- _]).
  pose proof (span_all isDigit digits [] Hd) as E.
  rewrite app_nil_r in E. rewrite E by discriminate. reflexivity.
Qed.

Lemma existsb_digit_parts (sign digits sep fraction : jsstring) :
  (sign = [] \/ sign = str "-" \/ sign = str "+") ->
  forallb isDigit digits = true -> (sep = [] \/ sep = str ".") ->
  forallb isDigit fraction = true ->
  existsb isDigit (sign ++ digits ++ sep ++ fraction)
  = match (digits ++ fraction)%list with [] => false | _ :: _ => true end.
Proof.
  intros Hs Hd Hsep Hf. rewrite !existsb_app.
  replace (existsb isDigit sign) with false
    by (now destruct Hs as [->|[->| ->]]).
  replace (existsb isDigit sep) with false
    by (now destruct Hsep as [->| ->]).
  cbn [orb].
  destruct digits as [|d ds]; cbn [app existsb forallb orb] in *.
  - destruct fraction as [|f fs]; [reflexivity|].
    cbn [existsb forallb] in *. apply andb_prop in Hf as [-> _].
    reflexivity.
  - apply andb_prop in Hd as [-> _]. reflexivity.
Qed.

(** X5: Extraction followed by parsing: the extracted string is parsed as a
    valid number, its conversion, which is not NaN, exactly when it holds
    a digit; the empty string is the valid absent value, and a string of
    sign and period only is invalid. *)
Theorem extracted_string_parses (value r : jsstring) (allowDecimal : bool) :
  getPossibleNumberSubstring value allowDecimal = Some r ->
  (r = [] -> getParsedValue (Some r) = {| valid := true; value := None |})
  /\ (existsb isDigit r = true ->
      getParsedValue (Some r)
      = {| valid := true; value := Some (Number r) |}
      /\ isNaN (Number r) = false)
  /\ (r <> [] -> existsb isDigit r = false ->
      getParsedValue (Some r) = {| valid := false; value := None |}).
Proof.
  intros H.
  destruct (substring_parts value allowDecimal r H)
    as (sign & digits & sep & fraction & Hs & Hd & Hsep & Hf & Et & Ef).
  assert (Hr : exists digits' sep' fraction',
             r = (sign ++ digits' ++ sep' ++ fraction')%list
             /\ forallb isDigit digits' = true
             /\ (sep' = [] \/ sep' = str ".")
             /\ forallb isDigit fraction' = true).
  { destruct allowDecimal.
    - exists digits, sep, fraction. split; [congruence|auto].
    - exists digits, [], []. split; [|auto].
      cbn [app]. rewrite app_nil_r. congruence. }
  clear Hd Hsep Hf Et Ef digits sep fraction.
  destruct Hr as (digits & sep & fraction & -> & Hd & Hsep & Hf).
  pose proof (Number_of_parts sign digits sep fraction Hs Hd Hsep Hf) as HN.
  pose proof (existsb_digit_parts sign digits sep fraction Hs Hd Hsep Hf)
    as HE.
  cbv zeta in HN. rewrite HE.
  set (r := (sign ++ digits ++ sep ++ fraction)%list) in *.
  split; [|split].
  - intros E. now rewrite E.
  - intros Hdig. destruct (digits ++ fraction)%list; [discriminate|].
    destruct r as [|c r0] eqn:Er.
    + exfalso. unfold r in Er.
      destruct Hs as [->|[->| ->]]; discriminate.
    + specialize (HN ltac:(discriminate)).
      cbn [getParsedValue]. rewrite HN. split; reflexivity.
  - intros Hne Hdig. destruct (digits ++ fraction)%list; [|discriminate].
    destruct r as [|c r0] eqn:Er; [contradiction|].
    cbn [getParsedValue]. now rewrite HN.
Qed.

Lemma extracted_string_parses_witness :
  getParsedValue (Some (str "-123456.78"))
  = {| valid := true; value := Some (Number (str "-123456.78")) |}
  /\ isNaN (Number (str "-123456.78")) = false.
Proof.
  apply (extracted_string_parses (str "- $123 456,78k") (str "-123456.78")
           true); vm_compute; reflexivity.
Defined.

(** X6: Parsed values through the validator: the value of getParsedValue is
    never NaN, an invalid candidate has the value null, and the validator
    never reports INCORRECT_NUMBER on a parsed value. *)
Theorem parsed_value_is_never_incorrect
    (p : GetNumericInputValidatorParams) (candidate : option jsstring) :
  let parsed := getParsedValue candidate in
  (forall x, value parsed = Some x -> isNaN x = false)
  /\ (valid parsed = false -> value parsed = None)
  /\ validator p (value parsed) <> Some INCORRECT_NUMBER.
Proof.
  intros parsed.
  assert (H : forall x, value parsed = Some x -> isNaN x = false).
  { unfold parsed. destruct candidate as [[|c s]|]; cbn; try discriminate.
    intros x. destruct (isNaN (Number (c :: s))) eqn:E; cbn;
      [discriminate|]. now intros [= <-]. }
  split; [exact H|]. split.
  - unfold parsed. destruct candidate as [[|c s]|]; cbn; try discriminate.
    now destruct (isNaN (Number (c :: s))).
  - unfold validator. destruct (value parsed) as [x|]; [|discriminate].
    rewrite (H x eq_refl).
    repeat match goal with |- context [if ?c then _ else _] =>
      destruct c end; discriminate.
Qed.

Lemma not_ltb_leb (a b : number) :
  isNaN a = false -> isNaN b = false -> ltb a b = false -> leb b a = true.
Proof.
  unfold leb, ltb.
  destruct a as [|[|]|x], b as [|[|]|y]; cbn [compare isNaN];
    try discriminate; try reflexivity.
  rewrite <- (Qcompare_antisym x y). destruct (x ?= y); cbn; congruence.
Qed.

(** X7: What acceptance means: a number that the validator accepts is not NaN,
    lies between the bounds in force (when these are not NaN), is not
    negative under positiveOnly and is an integer under withoutFraction. *)
Theorem accepted_value_respects_constraints
    (p : GetNumericInputValidatorParams) (v : number) :
  validator p (Some v) = None ->
  let lo := opt_coalesce (min p) MIN_SAFE_INTEGER in
  let hi := opt_coalesce (max p) MAX_SAFE_INTEGER in
  isNaN v = false
  /\ (isNaN lo = false -> leb lo v = true)
  /\ (isNaN hi = false -> leb v hi = true)
  /\ (positiveOnly p = true -> leb (ofZ 0) v = true)
  /\ (withoutFraction p = true -> isInteger v = true).
Proof.
  intros H. cbv zeta. unfold validator in H.
  set (lo := opt_coalesce (min p) MIN_SAFE_INTEGER) in *.
  set (hi := opt_coalesce (max p) MAX_SAFE_INTEGER) in *.
  destruct (isNaN v) eqn:Hnan; [discriminate|].
  destruct (positiveOnly p && ltb v (ofZ 0)) eqn:Hpos; [discriminate|].
  destruct (withoutFraction p && negb (isInteger v)) eqn:Hfrac;
    [discriminate|].
  destruct (ltb v lo) eqn:Hlo; [discriminate|].
  destruct (gtb v hi) eqn:Hhi; [discriminate|].
  split; [reflexivity|]. split; [|split; [|split]].
  - intros Hl. now apply not_ltb_leb.
  - intros Hh. now apply not_gtb_leb.
  - intros Hp. rewrite Hp in Hpos. cbn [andb] in Hpos.
    now apply not_ltb_leb.
  - intros Hw. rewrite Hw in Hfrac. cbn [andb] in Hfrac.
    now destruct (isInteger v).
Qed.

Lemma accepted_value_respects_constraints_witness :
  isNaN (ofZ 7) = false
  /\ (isNaN (ofZ 0) = false -> leb (ofZ 0) (ofZ 7) = true)
  /\ (isNaN (ofZ 10) = false -> leb (ofZ 7) (ofZ 10) = true)
  /\ (true = true -> leb (ofZ 0) (ofZ 7) = true)
  /\ (true = true -> isInteger (ofZ 7) = true).
Proof.
  apply (accepted_value_respects_constraints
           {| positiveOnly := true; withoutFraction := true;
              min := Some (ofZ 0); max := Some (ofZ 10) |} (ofZ 7)).
  vm_compute. reflexivity.
Defined.

(** ** areStringRepresentationOfNumbersEqual *)

Lemma strict_eq_sym (a b : number) : strict_eq a b = strict_eq b a.
Proof.
  unfold strict_eq.
  destruct a as [|[|]|x], b as [|[|]|y]; cbn [compare]; try reflexivity.
  rewrite <- (Qcompare_antisym x y). now destruct (x ?= y).
Qed.

Lemma string_strict_eq_sym (a b : jsstring) :
  string_strict_eq a b = string_strict_eq b a.
Proof.
  unfold string_strict_eq.
  destruct (list_eq_dec ascii_dec a b), (list_eq_dec ascii_dec b a);
    congruence.
Qed.

(** X18: The comparison of string representations is symmetric. *)
Theorem areStringRepresentationOfNumbersEqual_sym (v1 v2 : jsstring) :
  areStringRepresentationOfNumbersEqual v1 v2
  = areStringRepresentationOfNumbersEqual v2 v1.
Proof.
  unfold areStringRepresentationOfNumbersEqual.
  rewrite (string_strict_eq_sym v2 v1).
  destruct (string_strict_eq v1 v2); [reflexivity|].
  rewrite (andb_comm (valid (getParsedValue (Some v2)))).
  destruct (_ && _).
  - destruct (value (getParsedValue (Some v1))),
      (value (getParsedValue (Some v2))); cbn [value_strict_eq];
      auto using strict_eq_sym.
  - rewrite (Nat.eqb_sym (List.length (removeAll isNonDigit v2))).
    destruct (Nat.eqb_spec (List.length (removeAll isNonDigit v1))
                (List.length (removeAll isNonDigit v2))) as [E|_];
      [|reflexivity].
    now rewrite E.
Qed.

(** X19: A typed trailing period does not make a difference: a signed run of
    digits followed by a period equals the same text without the period. *)
Theorem trailing_period_is_equal (sign digits : jsstring) :
  (sign = [] \/ sign = str "-" \/ sign = str "+") ->
  digits <> [] -> forallb isDigit digits = true ->
  areStringRepresentationOfNumbersEqual
    (sign ++ digits ++ str ".") (sign ++ digits)
  = true.
Proof.
  intros Hs Hne Hd. unfold areStringRepresentationOfNumbersEqual.
  destruct (string_strict_eq _ _); [reflexivity|].
  destruct (parts_body digits (str ".") [] Hd (or_intror eq_refl) eq_refl)
    as [Hb1 Hh1].
  destruct (parts_body digits [] [] Hd (or_introl eq_refl) eq_refl)
    as [Hb2 Hh2].
  cbn [app] in Hb2, Hh2. rewrite app_nil_r in Hb1, Hh1, Hb2, Hh2.
  assert (N1 : (sign ++ digits ++ str ".")%list <> []).
  { destruct sign, digits; discriminate. }
  assert (N2 : (sign ++ digits)%list <> []).
  { destruct sign, digits; try discriminate. contradiction. }
  assert (E : Number (sign ++ digits ++ str ".") = Number (sign ++ digits)).
  { rewrite (Number_signed sign _ Hs Hb1 Hh1 N1),
      (Number_signed sign _ Hs Hb2 Hh2 N2).
    now rewrite decimalLiteral_trailing_period. }
  pose proof (Number_of_parts sign digits [] [] Hs Hd (or_introl eq_refl)
                eq_refl) as HN.
  cbn [app] in HN. rewrite !app_nil_r in HN. specialize (HN N2).
  destruct digits as [|d ds]; [contradiction|].
  cbn [app] in HN.
  destruct (sign ++ (d :: ds) ++ str ".")%list as [|c1 s1] eqn:E1;
    [contradiction|].
  destruct (sign ++ d :: ds)%list as [|c2 s2] eqn:E2; [contradiction|].
  cbn [getParsedValue valid value]. rewrite E, HN.
  cbn [negb andb value_strict_eq]. now apply strict_eq_refl.
Qed.

Lemma trailing_period_is_equal_witness :
  areStringRepresentationOfNumbersEqual (str "-1.") (str "-1") = true.
Proof.
  apply (trailing_period_is_equal (str "-") (str "1")); vm_compute;
    try congruence; auto.
Defined.


(** ** updateCursorPosition *)

Lemma sliceTo_prefix (p t : jsstring) :
  sliceTo (p ++ t) (Z.of_nat (List.length p)) = p.
Proof.
  unfold sliceTo. rewrite length_app.
  destruct (Z.ltb_spec (Z.of_nat (List.length p)) 0); [lia|].
  rewrite Z.min_l by lia. rewrite Nat2Z.id.
  rewrite firstn_app, firstn_all, Nat.sub_diag. cbn. apply app_nil_r.
Qed.

Lemma sliceTo_length (s : jsstring) (n : nat) :
  List.length (sliceTo s (Z.of_nat n)) = Nat.min n (List.length s).
Proof.
  unfold sliceTo. destruct (Z.ltb_spec (Z.of_nat n) 0); [lia|].
  rewrite length_firstn. lia.
Qed.

Lemma string_strict_eq_true (a b : jsstring) :
  string_strict_eq a b = true <-> a = b.
Proof.
  unfold string_strict_eq. destruct (list_eq_dec ascii_dec a b);
    split; congruence.
Qed.

(** X20: The rewrite keeps what follows the caret.  When the field shows the raw
    text, the raw and the computed text end with the same characters and the
    caret stands before these, the field shows the computed text afterwards
    and the caret stands before the same characters. *)
Theorem updateCursorPosition_keeps_suffix (el : HTMLInputElement)
    (p p' t : jsstring) :
  el_value el = (p ++ t)%list -> el_selectionEnd el = List.length p ->
  exists el',
    updateCursorPosition (Some el) (Some (p ++ t)%list) (Some (p' ++ t)%list)
    = Some el'
    /\ el_value el' = (p' ++ t)%list
    /\ el_selectionEnd el' = List.length p'.
Proof.
  intros Hv Hs. unfold updateCursorPosition. rewrite Hs.
  destruct (string_strict_eq (p ++ t) (p' ++ t)) eqn:E; cbn [negb].
  - apply string_strict_eq_true, app_inv_tail in E. subst p'.
    exists el. auto.
  - rewrite sliceTo_prefix.
    replace (Z.of_nat (List.length (p' ++ t))
             - (Z.of_nat (List.length (p ++ t)) - Z.of_nat (List.length p)))%Z
      with (Z.of_nat (List.length p')) by (rewrite !length_app; lia).
    rewrite sliceTo_prefix. cbn [option_map]. eexists.
    split; [reflexivity|]. unfold setRangeText.
    cbn [el_value el_selectionEnd Nat.min firstn app Nat.add].
    split; [|reflexivity]. rewrite Hv.
    rewrite Nat.min_l by (rewrite length_app; lia).
    rewrite skipn_app, skipn_all, Nat.sub_diag. reflexivity.
Qed.

Lemma updateCursorPosition_keeps_suffix_witness :
  exists el',
    updateCursorPosition
      (Some {| el_value := str "12a3k"; el_selectionStart := 3;
               el_selectionEnd := 3 |})
      (Some (str "12a" ++ str "3k")%list) (Some (str "12" ++ str "3k")%list)
    = Some el'
    /\ el_value el' = (str "12" ++ str "3k")%list
    /\ el_selectionEnd el' = List.length (str "12").
Proof.
  apply (updateCursorPosition_keeps_suffix
           {| el_value := str "12a3k"; el_selectionStart := 3;
              el_selectionEnd := 3 |} (str "12a") (str "12") (str "3k"));
    reflexivity.
Defined.

(** X21: The text after the caret is never touched: whatever the computed text,
    when the field shows the raw text, the new value of the field ends with
    the characters that followed the caret. *)
Theorem updateCursorPosition_preserves_text_after_caret
    (el : HTMLInputElement) (raw computed : jsstring) :
  el_value el = raw ->
  exists el',
    updateCursorPosition (Some el) (Some raw) (Some computed) = Some el'
    /\ exists before,
         el_value el' = (before ++ skipn (el_selectionEnd el) raw)%list.
Proof.
  intros Hv. unfold updateCursorPosition.
  destruct (string_strict_eq raw computed); cbn [negb option_map].
  - exists el. split; [reflexivity|].
    exists (firstn (el_selectionEnd el) raw). rewrite Hv.
    symmetry. apply firstn_skipn.
  - eexists. split; [reflexivity|]. unfold setRangeText.
    cbn [el_value Nat.min firstn app]. eexists. f_equal.
    rewrite Hv, sliceTo_length.
    destruct (Nat.le_gt_cases (el_selectionEnd el) (List.length raw)).
    + f_equal. lia.
    + now rewrite !skipn_all2 by lia.
Qed.

Lemma updateCursorPosition_preserves_text_after_caret_witness :
  exists el',
    updateCursorPosition
      (Some {| el_value := str "1x2 kg"; el_selectionStart := 2;
               el_selectionEnd := 2 |})
      (Some (str "1x2 kg")) (Some (str "12"))
    = Some el'
    /\ exists before,
         el_value el' = (before ++ skipn 2 (str "1x2 kg"))%list.
Proof.
  apply (updateCursorPosition_preserves_text_after_caret
           {| el_value := str "1x2 kg"; el_selectionStart := 2;
              el_selectionEnd := 2 |} (str "1x2 kg") (str "12")).
  reflexivity.
Defined.

(** ** isUnbreakableOver *)

Section Unbreakable.

Local Abbreviation word w := (forallb (fun c => negb (isWhiteSpace c)) w).

(** Every piece of the split is a run of characters of the string that holds
    no white space. *)
Lemma splitGo_piece (s : jsstring) :
  forall inSpace cur piece,
    word cur = true -> In piece (splitGo inSpace cur s) ->
    word piece = true
    /\ exists pre post, (cur ++ s)%list = (pre ++ piece ++ post)%list.
Proof.
  induction s as [|c s IH]; intros inSpace cur piece Hcur Hin;
    cbn [splitGo] in Hin.
  - destruct Hin as [<-|[]]. split; [assumption|].
    exists [], []. now rewrite !app_nil_r.
  - assert (Hrest : In piece (splitGo true [] s) ->
                    word piece = true
                    /\ exists pre post,
                         (cur ++ c :: s)%list = (pre ++ piece ++ post)%list).
    { intros H. destruct (IH true [] piece eq_refl H)
        as (Hw & pre & post & E).
      split; [assumption|]. exists (cur ++ c :: pre)%list, post.
      cbn [app] in E. rewrite E, <- app_assoc. reflexivity. }
    destruct (isWhiteSpace c) eqn:Hc.
    + destruct inSpace; [auto|].
      destruct Hin as [<-|Hin]; [|auto].
      split; [assumption|]. exists [], (c :: s). reflexivity.
    + assert (Hcur' : word (cur ++ [c]) = true).
      { rewrite forallb_app, Hcur. cbn. now rewrite Hc. }
      destruct (IH false (cur ++ [c])%list piece Hcur' Hin)
        as (Hw & pre & post & E).
      split; [assumption|]. exists pre, post.
      rewrite <- E, <- app_assoc. reflexivity.
Qed.

(** The piece being read is never lost. *)
Lemma splitGo_current (s : jsstring) :
  forall inSpace cur,
    (inSpace = true -> cur = []) ->
    exists piece, In piece (splitGo inSpace cur s)
                  /\ (List.length cur <= List.length piece)%nat.
Proof.
  induction s as [|c s IH]; intros inSpace cur Hinv; cbn [splitGo].
  - exists cur. split; [now left|lia].
  - destruct (isWhiteSpace c).
    + destruct inSpace.
      * rewrite (Hinv eq_refl).
        destruct (IH true [] (fun _ => eq_refl)) as (piece & Hin & _).
        exists piece. split; [assumption|cbn; lia].
      * exists cur. split; [now left|lia].
    + destruct (IH false (cur ++ [c])%list) as (piece & Hin & Hlen);
        [discriminate|].
      exists piece. split; [assumption|]. rewrite length_app in Hlen. lia.
Qed.

(** A run without white space lies within one piece. *)
Lemma splitGo_word (w post : jsstring) :
  word w = true ->
  forall inSpace cur,
    (inSpace = true -> cur = []) ->
    exists piece, In piece (splitGo inSpace cur (w ++ post))
                  /\ (List.length cur + List.length w
                      <= List.length piece)%nat.
Proof.
  induction w as [|c w IH]; intros Hw inSpace cur Hinv.
  - destruct (splitGo_current post inSpace cur Hinv) as (piece & Hin & Hlen).
    exists piece. split; [assumption|cbn; lia].
  - cbn [forallb] in Hw.
    apply andb_prop in Hw as [Hc Hw].
    cbn [app splitGo]. apply negb_true_iff in Hc. rewrite Hc.
    destruct (IH Hw false (cur ++ [c])%list) as (piece & Hin & Hlen);
      [discriminate|].
    exists piece. split; [assumption|].
    rewrite length_app in Hlen. cbn [List.length] in *. lia.
Qed.

Lemma splitGo_run (pre w post : jsstring) :
  word w = true ->
  forall inSpace cur,
    (inSpace = true -> cur = []) ->
    exists piece, In piece (splitGo inSpace cur (pre ++ w ++ post))
                  /\ (List.length w <= List.length piece)%nat.
Proof.
  intros Hw. induction pre as [|c pre IH]; intros inSpace cur Hinv.
  - destruct (splitGo_word w post Hw inSpace cur Hinv)
      as (piece & Hin & Hlen).
    exists piece. split; [assumption|lia].
  - cbn [app splitGo]. destruct (isWhiteSpace c).
    + destruct (IH true [] (fun _ => eq_refl)) as (piece & Hin & Hlen).
      exists piece. split; [|assumption].
      destruct inSpace; [assumption|now right].
    + apply IH. discriminate.
Qed.

Lemma gtb_length_mono (a b : nat) (limit : number) :
  (a <= b)%nat -> gtb (ofZ (Z.of_nat a)) limit = true ->
  gtb (ofZ (Z.of_nat b)) limit = true.
Proof.
  intros Hab. destruct limit as [|[|]|y]; try (intros; assumption).
  unfold ofZ. rewrite !gtb_Fin. intros H.
  assert (inject_Z (Z.of_nat a) <= inject_Z (Z.of_nat b))
    by (rewrite <- Zle_Qle; lia).
  lra.
Qed.

(** The text cannot be broken within [limit] characters exactly when it
    holds a run of more than [limit] characters without white space. *)
Lemma isUnbreakableOver_iff (limit : number) (value : jsstring) :
  isUnbreakableOver limit value = true
  <-> exists pre w post,
        value = (pre ++ w ++ post)%list /\ word w = true
        /\ gtb (ofZ (Z.of_nat (List.length w))) limit = true.
Proof.
  unfold isUnbreakableOver, splitWhiteSpace. rewrite existsb_exists. split.
  - intros (piece & Hin & Hgt).
    destruct (splitGo_piece value false [] piece eq_refl Hin)
      as (Hw & pre & post & E).
    exists pre, piece, post. auto.
  - intros (pre & w & post & -> & Hw & Hgt).
    destruct (splitGo_run pre w post Hw false []) as (piece & Hin & Hlen);
      [discriminate|].
    exists piece. split; [assumption|].
    now apply (gtb_length_mono (List.length w)).
Qed.

End Unbreakable.

(** X22: isUnbreakableOver tells whether the text holds more than [limit]
    characters in a row without white space: it is true exactly when such a
    run exists. *)
Theorem isUnbreakableOver_long_run (limit : number) (value : jsstring) :
  isUnbreakableOver limit value = true
  <-> exists pre w post,
        value = (pre ++ w ++ post)%list
        /\ forallb (fun c => negb (isWhiteSpace c)) w = true
        /\ gtb (ofZ (Z.of_nat (List.length w))) limit = true.
Proof.
  apply isUnbreakableOver_iff.
Qed.

Lemma run_beside_space (w post l b : jsstring) (c : ascii) :
  ~ In c w -> (w ++ post)%list = (l ++ c :: b)%list ->
  exists post', l = (w ++ post')%list.
Proof.
  revert l. induction w as [|y w IH]; intros l Hc E.
  - now exists l.
  - destruct l as [|x l]; cbn [app] in E; injection E as -> E.
    + exfalso. apply Hc. now left.
    + destruct (IH l) as (post' & ->); [|assumption|].
      * intros H. apply Hc. now right.
      * now exists post'.
Qed.

Lemma run_around_space (a b pre w post : jsstring) (c : ascii) :
  ~ In c w -> (a ++ c :: b)%list = (pre ++ w ++ post)%list ->
  (exists post', a = (pre ++ w ++ post')%list)
  \/ (exists pre', b = (pre' ++ w ++ post)%list).
Proof.
  revert a. induction pre as [|x pre IH]; intros a Hc E.
  - left. cbn [app] in *. symmetry in E.
    apply (run_beside_space w post a b c Hc E).
  - destruct a as [|y a]; cbn [app] in E; injection E as -> E.
    + right. now exists pre.
    + destruct (IH a Hc E) as [(post' & ->)|(pre' & ->)].
      * left. now exists post'.
      * right. now exists pre'.
Qed.

(** X23: White space separates: a text made of two parts with a white-space
    character between them is unbreakable exactly when one of the parts
    is. *)
Theorem isUnbreakableOver_across_space (limit : number) (a b : jsstring)
    (c : ascii) :
  isWhiteSpace c = true ->
  isUnbreakableOver limit (a ++ c :: b)
  = isUnbreakableOver limit a || isUnbreakableOver limit b.
Proof.
  intros Hc. apply eq_true_iff_eq.
  rewrite orb_true_iff, !isUnbreakableOver_iff. split.
  - intros (pre & w & post & E & Hw & Hgt).
    assert (Hnc : ~ In c w).
    { intros Hin. rewrite forallb_forall in Hw. apply Hw in Hin.
      rewrite Hc in Hin. discriminate. }
    destruct (run_around_space a b pre w post c Hnc E)
      as [(post' & ->)|(pre' & ->)]; [left|right]; eauto 7.
  - intros [(pre & w & post & -> & Hw & Hgt)|(pre & w & post & -> & Hw & Hgt)].
    + exists pre, w, (post ++ c :: b)%list.
      rewrite <- !app_assoc. auto.
    + exists (a ++ c :: pre)%list, w, post.
      rewrite <- app_assoc. auto.
Qed.

Lemma isUnbreakableOver_across_space_witness :
  isUnbreakableOver (ofZ 3) (str "ab" ++ " "%char :: str "cdefg")
  = isUnbreakableOver (ofZ 3) (str "ab")
    || isUnbreakableOver (ofZ 3) (str "cdefg").
Proof.
  apply (isUnbreakableOver_across_space (ofZ 3) (str "ab") (str "cdefg")
           " "%char).
  reflexivity.
Defined.

Lemma gtb_leb_trans (n : Z) (l1 l2 : number) :
  leb l1 l2 = true -> gtb (ofZ n) l2 = true -> gtb (ofZ n) l1 = true.
Proof.
  unfold ofZ.
  destruct l1 as [|[|]|x], l2 as [|[|]|y]; try discriminate;
    try (intros; assumption); try reflexivity.
  rewrite leb_Fin, !gtb_Fin. intros. lra.
Qed.

(** X24: A smaller limit is easier to exceed: a text that is unbreakable over a
    limit is unbreakable over every smaller limit. *)
Theorem isUnbreakableOver_monotone (l1 l2 : number) (value : jsstring) :
  leb l1 l2 = true -> isUnbreakableOver l2 value = true ->
  isUnbreakableOver l1 value = true.
Proof.
  intros Hle. unfold isUnbreakableOver. rewrite !existsb_exists.
  intros (piece & Hin & Hgt). exists piece. split; [assumption|].
  now apply (gtb_leb_trans _ l1 l2).
Qed.

Lemma isUnbreakableOver_monotone_witness :
  isUnbreakableOver (ofZ 2) (str "ab cdefg") = true.
Proof.
  apply (isUnbreakableOver_monotone (ofZ 2) (ofZ 4)); reflexivity.
Defined.

(** ** useBodyScrollLock *)

Section ScrollLock.

Import BodyScrollLock.

Lemma last_cons_default (c : domCall) (cs : list domCall) (d : domCall) :
  last (c :: cs) d = last cs c.
Proof.
  revert c d. induction cs as [|a cs IH]; intros c d; [reflexivity|].
  change (last (c :: a :: cs) d) with (last (a :: cs) d).
  now rewrite !IH.
Qed.

Lemma alternate_snoc (cs : list domCall) (x : domCall) :
  forall styled,
    alternate styled (cs ++ [x])
    = alternate styled cs
      && match x,
               last cs (if styled then setBodyStyles else restoreBodyStyles)
         with
         | setBodyStyles, restoreBodyStyles => true
         | restoreBodyStyles, setBodyStyles => true
         | _, _ => false
         end.
Proof.
  induction cs as [|c cs IH]; intros styled.
  - cbn. destruct x, styled; reflexivity.
  - rewrite last_cons_default. cbn [app alternate].
    destruct c; rewrite IH, <- andb_assoc; reflexivity.
Qed.

Lemma styledAfter_snoc (cs : list domCall) (x : domCall) :
  styledAfter (cs ++ [x])
  = match x with setBodyStyles => true | restoreBodyStyles => false end.
Proof.
  unfold styledAfter. now rewrite last_last.
Qed.

(** The state of the module when [n] cleanups are still to run: the counter
    is [n], the calls alternate from unset styles, and the styles are set
    exactly when [n] is positive. *)
Local Abbreviation consistent s n :=
  (locks s = Z.of_nat n
   /\ alternate false (calls s) = true
   /\ styledAfter (calls s) = (0 <? n)%nat).

Lemma effect_consistent (enabled : bool) (s : moduleState) (n : nat) :
  consistent s n ->
  consistent (fst (effect enabled s))
    (if snd (effect enabled s) then S n else n).
Proof.
  intros (Hl & Ha & Hs). unfold effect.
  destruct enabled; cbn [fst snd locks calls]; [|auto].
  rewrite Hl. split; [lia|].
  destruct (Z.eqb_spec (Z.of_nat n + 1) 1) as [E|E].
  - assert (n = 0)%nat by lia. subst n.
    rewrite alternate_snoc, Ha, styledAfter_snoc. cbn [andb].
    unfold styledAfter in Hs. cbn in Hs.
    destruct (last (calls s) restoreBodyStyles); [discriminate|auto].
  - destruct n; [lia|]. auto.
Qed.

Lemma cleanup_consistent (s : moduleState) (n : nat) :
  consistent s (S n) -> consistent (cleanup s) n.
Proof.
  intros (Hl & Ha & Hs). unfold cleanup. cbn [locks calls].
  rewrite Hl. split; [lia|].
  destruct (Z.eqb_spec (Z.of_nat (S n) - 1) 0) as [E|E].
  - assert (n = 0)%nat by lia. subst n.
    rewrite alternate_snoc, Ha, styledAfter_snoc. cbn [andb].
    unfold styledAfter in Hs. cbn in Hs.
    destruct (last (calls s) restoreBodyStyles); [auto|discriminate].
  - destruct n; [lia|]. auto.
Qed.

Lemma run_consistent (acts : list action) :
  forall s n s' n',
    consistent s n -> run acts s n = Some (s', n') -> consistent s' n'.
Proof.
  induction acts as [|[enabled|] acts IH]; intros s n s' n' Hc Hrun;
    cbn [run] in Hrun.
  - now injection Hrun as <- <-.
  - pose proof (effect_consistent enabled s n Hc) as H.
    destruct (effect enabled s) as [s1 returned]. cbn [fst snd] in H.
    exact (IH _ _ _ _ H Hrun).
  - destruct n as [|n]; [discriminate|].
    exact (IH _ _ _ _ (cleanup_consistent s n Hc) Hrun).
Qed.

End ScrollLock.

(** X25: The protocol of the lock counter.  After any sequence of effects and of
    cleanups that were returned by earlier effects, the counter equals the
    number of cleanups still to run, setBodyStyles and restoreBodyStyles
    have been called in alternation starting with setBodyStyles, and the
    styles are set exactly when a lock is held. *)
Theorem scroll_lock_protocol (acts : list BodyScrollLock.action)
    (s : BodyScrollLock.moduleState) (pending : nat) :
  BodyScrollLock.run acts BodyScrollLock.initialState 0 = Some (s, pending) ->
  BodyScrollLock.locks s = Z.of_nat pending
  /\ BodyScrollLock.alternate false (BodyScrollLock.calls s) = true
  /\ BodyScrollLock.styledAfter (BodyScrollLock.calls s)
     = (0 <? pending)%nat.
Proof.
  apply run_consistent. repeat split.
Qed.

Lemma scroll_lock_protocol_witness :
  let s := {| BodyScrollLock.locks := 1;
              BodyScrollLock.calls :=
                [BodyScrollLock.setBodyStyles;
                 BodyScrollLock.restoreBodyStyles;
                 BodyScrollLock.setBodyStyles] |} in
  BodyScrollLock.locks s = Z.of_nat 1
  /\ BodyScrollLock.alternate false (BodyScrollLock.calls s) = true
  /\ BodyScrollLock.styledAfter (BodyScrollLock.calls s) = (0 <? 1)%nat.
Proof.
  intros s.
  apply (scroll_lock_protocol
           [BodyScrollLock.runEffect true; BodyScrollLock.runEffect false;
            BodyScrollLock.runCleanup; BodyScrollLock.runEffect true;
            BodyScrollLock.runEffect true; BodyScrollLock.runCleanup]
           s 1).
  reflexivity.
Defined.
